(** * unnamed-card-game, v0.01: the lobby, the deal and the per-player view

    A shallow embedding of [src/v0.01/server.js]: the in-memory [games] map,
    [createGame], [joinGame], [deal], [buildDeck], [shuffle],
    [projectGameForPlayer], [cardComparator], [splitCard], [generateCode] and
    the four JSON routes of [handleApi].

    Conventions of the embedding:
    - a JavaScript string is a [string] of single-byte code units (all the
      strings the server builds itself are ASCII);
    - a JavaScript number that holds an integer is a [nat] or a [Z];
      [undefined] and [NaN] are [None];
    - an object used as a dictionary ([game.hands], the [games] Map, the
      parsed request body and query) is a [gmap string _];
    - [Math.random()] and [randomUUID()] are read from two tapes, indexed by
      the number of calls made so far. *)

From Stdlib Require Import ZArith Lia.
From stdpp Require Import base option list strings gmap fin_maps sorting.

Local Open Scope string_scope.

(** ** String primitives *)

Module JsString.

(** Relative index of [String.prototype.slice]: negative counts from the
    end, everything is clamped to [0 .. len]. *)
Definition relative_index (len : nat) (k : Z) : nat :=
  if (k <? 0)%Z then Z.to_nat (Z.max (Z.of_nat len + k) 0)
  else Z.to_nat (Z.min k (Z.of_nat len)).

(** [s.slice(start, finish)]; [None] is an omitted [finish]. *)
Definition slice (s : string) (start : Z) (finish : option Z) : string :=
  let len := String.length s in
  let from := relative_index len start in
  let to := match finish with
            | None => len
            | Some e => relative_index len e
            end in
  String.substring from (to - from) s.

(** [s.charAt(k)]: the empty string out of range. *)
Definition charAt (s : string) (k : nat) : string :=
  match String.get k s with
  | Some c => String c EmptyString
  | None => EmptyString
  end.

(** White space of [trim], among single-byte code units: TAB, LF, VT, FF,
    CR, SPACE and NBSP. *)
Definition is_white_space (c : Ascii.ascii) : bool :=
  let n := Ascii.nat_of_ascii c in
  (Nat.leb 9 n && Nat.leb n 13) || Nat.eqb n 32 || Nat.eqb n 160.

Fixpoint trimStart (s : string) : string :=
  match s with
  | String c s' => if is_white_space c then trimStart s' else s
  | EmptyString => EmptyString
  end.

Fixpoint trimEnd (s : string) : string :=
  match s with
  | String c s' =>
      match trimEnd s' with
      | EmptyString => if is_white_space c then EmptyString else String c EmptyString
      | rest => String c rest
      end
  | EmptyString => EmptyString
  end.

Definition trim (s : string) : string := trimEnd (trimStart s).

(** [toUpperCase] on the ASCII letters; other code units are kept. *)
Definition upper_ascii (c : Ascii.ascii) : Ascii.ascii :=
  let n := Ascii.nat_of_ascii c in
  if Nat.leb 97 n && Nat.leb n 122 then Ascii.ascii_of_nat (n - 32) else c.

Fixpoint toUpperCase (s : string) : string :=
  match s with
  | String c s' => String (upper_ascii c) (toUpperCase s')
  | EmptyString => EmptyString
  end.

End JsString.

(** ** Array primitives *)

Module JsArray.

(** [a.slice(start, finish)] for in-range, non-negative bounds. *)
Definition slice {A} (a : list A) (start finish : nat) : list A :=
  take (finish - start) (drop start a).

(** [a.indexOf(x)]: [-1] when absent. *)
Fixpoint indexOf_from (a : list string) (x : string) (k : Z) : Z :=
  match a with
  | [] => (-1)%Z
  | y :: a' => if decide (y = x) then k else indexOf_from a' x (k + 1)%Z
  end.

Definition indexOf (a : list string) (x : string) : Z := indexOf_from a x 0%Z.

(** [[a[i], a[j]] = [a[j], a[i]]]: both reads happen before both writes.
    The indexes are in range wherever the server swaps. *)
Definition swap {A} (a : list A) (i j : nat) : list A :=
  match a !! i, a !! j with
  | Some x, Some y => <[j:=x]> (<[i:=y]> a)
  | _, _ => a
  end.

(** The value [Array.prototype.sort] compares with: a [NaN] from the
    comparator counts as [+0]. *)
Definition SortCompare {A} (comparefn : A → A → option Z) (x y : A) : Z :=
  default 0%Z (comparefn x y).

(** [Array.prototype.sort] is stable; on a consistent comparator its result
    is the one of any stable sort, here a stable insertion. *)
Fixpoint sort_insert {A} (comparefn : A → A → option Z) (x : A) (a : list A) : list A :=
  match a with
  | [] => [x]
  | y :: a' =>
      if (0 <? SortCompare comparefn x y)%Z
      then y :: sort_insert comparefn x a'
      else x :: y :: a'
  end.

Fixpoint sort {A} (comparefn : A → A → option Z) (a : list A) : list A :=
  match a with
  | [] => []
  | x :: a' => sort_insert comparefn x (sort comparefn a')
  end.

End JsArray.

(** [a - b] on numbers that may be [undefined]: [NaN] as soon as one is. *)
Definition num_sub (a b : option Z) : option Z :=
  match a, b with
  | Some x, Some y => Some (x - y)%Z
  | _, _ => None
  end.

(** ** Cards *)

Definition suits : list string := ["S"; "H"; "D"; "C"].
Definition ranks : list string :=
  ["A"; "K"; "Q"; "J"; "10"; "9"; "8"; "7"; "6"; "5"; "4"; "3"; "2"].

(** The template literal [`${rank}${suit}`]. *)
Definition card_of (rank suit : string) : string := rank +:+ suit.

(** The nested [for ... of] loops of [buildDeck]: suit-major. *)
Definition buildDeck : list string :=
  suit ← suits; rank ← ranks; [card_of rank suit].

Definition splitCard (card : string) : string * string :=
  let suit := JsString.slice card (-1) None in
  let rank := JsString.slice card 0 (Some (-1)%Z) in
  (rank, suit).

(** The object literal [suitOrder]; a suit is at most one character, so no
    inherited property name is ever looked up. *)
Definition suitOrder (suit : string) : option Z :=
  if decide (suit = "S") then Some 0%Z
  else if decide (suit = "H") then Some 1%Z
  else if decide (suit = "D") then Some 2%Z
  else if decide (suit = "C") then Some 3%Z
  else None.

Definition rankOrder : list string :=
  ["A"; "K"; "Q"; "J"; "10"; "9"; "8"; "7"; "6"; "5"; "4"; "3"; "2"].

Definition cardComparator (a b : string) : option Z :=
  let '(rankA, suitA) := splitCard a in
  let '(rankB, suitB) := splitCard b in
  if decide (suitA ≠ suitB)
  then num_sub (suitOrder suitA) (suitOrder suitB)
  else Some (JsArray.indexOf rankOrder rankA - JsArray.indexOf rankOrder rankB)%Z.

(** ** Players, games and views *)

Module Player.
(** [{ id, name, position }]; [position] is [undefined] when [joinGame]
    finds no free seat. *)
Record t := mk { id : string; name : string; position : option nat }.
End Player.

Module Game.
(** [{ id, hostId, status, players, hands }]. The field [createdAt] is
    written once and never read; it is left out. *)
Record t := mk {
  id : string;
  hostId : string;
  status : string;
  players : list Player.t;
  hands : gmap string (list string)
}.

Definition set_status (s : string) (g : t) : t :=
  mk (id g) (hostId g) s (players g) (hands g).
Definition set_players (ps : list Player.t) (g : t) : t :=
  mk (id g) (hostId g) (status g) ps (hands g).
Definition set_hands (h : gmap string (list string)) (g : t) : t :=
  mk (id g) (hostId g) (status g) (players g) h.
End Game.

Module PlayerView.
Record t := mk {
  id : string;
  name : string;
  position : option nat;
  isHost : bool;
  isYou : bool;
  handSize : nat
}.
End PlayerView.

Module View.
Record t := mk {
  gameId : string;
  status : string;
  hostId : string;
  players : list PlayerView.t;
  hand : list string
}.
End View.

(** ** The view projector

    [projectGameForPlayer] sorts an array in place. The arrays it can reach
    are the hands stored in the game and the arrays it allocates itself, so
    its memory is the game together with its local arrays, and an array
    reference says which of the two it points into. *)

Module Projector.

Inductive ArrayRef :=
| StoredHand (playerId : string)   (* the array object [game.hands[playerId]] *)
| LocalArray (n : nat).            (* the n-th array allocated by the call *)

Record Memory := mkMemory { game : Game.t; locals : list (list string) }.

Definition read (r : ArrayRef) (m : Memory) : list string :=
  match r with
  | StoredHand pid => default [] (Game.hands (game m) !! pid)
  | LocalArray n => default [] (locals m !! n)
  end.

Definition write (r : ArrayRef) (a : list string) (m : Memory) : Memory :=
  match r with
  | StoredHand pid =>
      mkMemory (Game.set_hands (<[pid:=a]> (Game.hands (game m))) (game m)) (locals m)
  | LocalArray n => mkMemory (game m) (<[n:=a]> (locals m))
  end.

Definition alloc (a : list string) (m : Memory) : ArrayRef * Memory :=
  (LocalArray (length (locals m)), mkMemory (game m) (locals m ++ [a])).

(** [game.hands[playerId] || []]: the stored array itself, or a new one. *)
Definition hand_or_empty (playerId : string) (m : Memory) : ArrayRef * Memory :=
  match Game.hands (game m) !! playerId with
  | Some _ => (StoredHand playerId, m)
  | None => alloc [] m
  end.

(** [[...r]]: a new array with the same elements. *)
Definition spread (r : ArrayRef) (m : Memory) : ArrayRef * Memory :=
  alloc (read r m) m.

(** [r.sort(comparefn)]: sorts the array [r] points to, returns [r]. *)
Definition sort (comparefn : string → string → option Z) (r : ArrayRef) (m : Memory)
  : ArrayRef * Memory :=
  (r, write r (JsArray.sort comparefn (read r m)) m).

(** [game.hands[p.id]?.length || 0]. *)
Definition handSize (g : Game.t) (pid : string) : nat :=
  match Game.hands g !! pid with
  | Some h => length h
  | None => 0
  end.

Definition projectPlayer (g : Game.t) (playerId : string) (p : Player.t) : PlayerView.t :=
  PlayerView.mk (Player.id p) (Player.name p) (Player.position p)
    (bool_decide (Player.id p = Game.hostId g))
    (bool_decide (Player.id p = playerId))
    (handSize g (Player.id p)).

(** The body of [projectGameForPlayer], statement by statement; it returns
    the view and the game as the call leaves it. *)
Definition run (game0 : Game.t) (playerId : string) : View.t * Game.t :=
  let m0 := mkMemory game0 [] in
  let '(playerHand, m1) := hand_or_empty playerId m0 in
  let '(copy, m2) := spread playerHand m1 in
  let '(sortedHand, m3) := sort cardComparator copy m2 in
  let g := game m3 in
  (View.mk (Game.id g) (Game.status g) (Game.hostId g)
     (projectPlayer g playerId <$> Game.players g)
     (read sortedHand m3),
   g).

End Projector.

Definition projectGameForPlayer (game : Game.t) (playerId : string) : View.t :=
  fst (Projector.run game playerId).

(** ** The server state and its two sources of entropy *)

(** The [games] Map, and how many times [Math.random] and [randomUUID] have
    been called. *)
Record Server := mkServer {
  games : gmap string Game.t;
  randomCalls : nat;
  uuidCalls : nat
}.

Definition set_games (gs : gmap string Game.t) (st : Server) : Server :=
  mkServer gs (randomCalls st) (uuidCalls st).

(** The server as it starts: [new Map()]. *)
Definition boot : Server := mkServer ∅ 0 0.

(** A request as [handleApi] sees it once [readBody] has parsed the body:
    method, path, the string fields of the JSON body and the fields of the
    query string. A body that is not JSON never gets further than [readBody]
    (the server answers 500) and is not a [Request]; a field that is absent
    is [undefined]. *)
Record Request := mkRequest {
  method : string;
  pathname : string;
  body : gmap string string;
  query : gmap string string
}.

Inductive Payload :=
| JsonError (error : string)
| JsonSeat (gameId playerId : string) (position : option nat)
| JsonOk
| JsonView (view : View.t)
| PlainNotFound.

Record Response := mkResponse { statusCode : nat; payload : Payload }.

Definition sendJson (status : nat) (p : Payload) : Response := mkResponse status p.
Definition notFound : Response := mkResponse 404 PlainNotFound.

Definition chars : string := "ABCDEFGHJKLMNPQRSTUVWXYZ23456789".

Section Entropy.

(** [random_tape k] is the raw draw behind the [k]-th call of
    [Math.random], [uuid_tape k] the [k]-th UUID. *)
Variable random_tape : nat → nat.
Variable uuid_tape : nat → string.

(** [Math.floor(Math.random() * n)]: [Math.random()] lies in [0, 1), so the
    floor is one of [0 .. n-1]; the draw is reduced into that range. *)
Definition random_below (n : nat) (st : Server) : nat * Server :=
  (random_tape (randomCalls st) `mod` n,
   mkServer (games st) (S (randomCalls st)) (uuidCalls st)).

Definition randomUUID (st : Server) : string * Server :=
  (uuid_tape (uuidCalls st),
   mkServer (games st) (randomCalls st) (S (uuidCalls st))).

(** The loop of [shuffle], entered with counter [i]. *)
Fixpoint shuffle_from (i : nat) (array : list string) (st : Server)
  : list string * Server :=
  match i with
  | 0 => (array, st)
  | S i' =>
      let '(j, st1) := random_below (i + 1) st in
      shuffle_from i' (JsArray.swap array i j) st1
  end.

Definition shuffle (array : list string) (st : Server) : list string * Server :=
  shuffle_from (length array - 1) array st.

(** The [for] loop of [generateCode] with [n] rounds left. *)
Fixpoint code_from (n : nat) (code : string) (st : Server) : string * Server :=
  match n with
  | 0 => (code, st)
  | S n' =>
      let '(k, st1) := random_below (String.length chars) st in
      code_from n' (code +:+ JsString.charAt chars k) st1
  end.

(** [generateCode] calls itself until the code is new; [fuel] bounds the
    number of attempts, [None] is the run that has not ended by then. *)
Fixpoint generateCode (fuel : nat) (st : Server) : option (string * Server) :=
  match fuel with
  | 0 => None
  | S fuel' =>
      let '(code, st1) := code_from 5 "" st in
      if decide (is_Some (games st1 !! code))
      then generateCode fuel' st1
      else Some (code, st1)
  end.

Definition createGame (fuel : nat) (name : string) (st : Server)
  : option (Game.t * Player.t * Server) :=
  '(gameId, st1) ← generateCode fuel st;
  let '(uuid, st2) := randomUUID st1 in
  let player := Player.mk uuid name (Some 0) in
  let game := Game.mk gameId (Player.id player) "lobby" [player] ∅ in
  Some (game, player, set_games (<[gameId:=game]> (games st2)) st2).

(** [joinGame] changes [game] in place; the changed game is returned and
    the caller stores it back under the key it was found at. *)
Definition joinGame (game : Game.t) (name : string) (st : Server)
  : Game.t * Player.t * Server :=
  let existingPositions := Player.position <$> Game.players game in
  let available :=
    find (λ pos, bool_decide (Some pos ∉ existingPositions)) [0; 1; 2; 3] in
  let '(uuid, st1) := randomUUID st in
  let player := Player.mk uuid name available in
  (Game.set_players (Game.players game ++ [player]) game, player, st1).

(** [(a, b) => a.position - b.position]. *)
Definition byPosition (a b : Player.t) : option Z :=
  num_sub (Z.of_nat <$> Player.position a) (Z.of_nat <$> Player.position b).

(** The [forEach] of [deal], from index [idx] on. *)
Fixpoint deal_from (deck : list string) (idx : nat) (ps : list Player.t)
    (game : Game.t) : Game.t :=
  match ps with
  | [] => game
  | player :: ps' =>
      let start := idx * 13 in
      deal_from deck (S idx) ps'
        (Game.set_hands
           (<[Player.id player := JsArray.slice deck start (start + 13)]> (Game.hands game))
           game)
  end.

Definition deal (game : Game.t) (st : Server) : Game.t * Server :=
  let '(deck, st1) := shuffle buildDeck st in
  let game1 := Game.set_hands ∅ game in
  let seated := JsArray.sort byPosition (Game.players game1) in
  let game2 := deal_from deck 0 seated game1 in
  (Game.set_status "started" game2, st1).

(** [games.get(k)] for a key that may be [undefined]. *)
Definition games_get (k : option string) (st : Server) : option Game.t :=
  k ≫= λ gameId, games st !! gameId.

(** A game changed in place is the same object the Map holds under the key
    it was found at. *)
Definition store_back (k : option string) (game : Game.t) (st : Server) : Server :=
  match k with
  | Some gameId => set_games (<[gameId:=game]> (games st)) st
  | None => st
  end.

Definition handleApi (fuel : nat) (req : Request) (st : Server)
  : option (Response * Server) :=
  if decide (method req = "POST" ∧ pathname req = "/api/game/create") then
    let name := JsString.trim (default "" (body req !! "name")) in
    if decide (name = "") then
      Some (sendJson 400 (JsonError "Name is required"), st)
    else
      '(game, player, st1) ← createGame fuel name st;
      Some (sendJson 200
              (JsonSeat (Game.id game) (Player.id player) (Player.position player)),
            st1)
  else if decide (method req = "POST" ∧ pathname req = "/api/game/join") then
    let gameId :=
      JsString.toUpperCase (JsString.trim (default "" (body req !! "gameId"))) in
    let name := JsString.trim (default "" (body req !! "name")) in
    match games_get (Some gameId) st with
    | None => Some (sendJson 404 (JsonError "Game not found"), st)
    | Some game =>
        if decide (Game.status game ≠ "lobby") then
          Some (sendJson 400 (JsonError "Game already started"), st)
        else if decide (name = "") then
          Some (sendJson 400 (JsonError "Name is required"), st)
        else if decide (4 ≤ length (Game.players game))%nat then
          Some (sendJson 400 (JsonError "Game is full"), st)
        else
          let '(game', player, st1) := joinGame game name st in
          Some (sendJson 200
                  (JsonSeat (Game.id game') (Player.id player) (Player.position player)),
                store_back (Some gameId) game' st1)
    end
  else if decide (method req = "POST" ∧ pathname req = "/api/game/start") then
    let gameId := body req !! "gameId" in
    let playerId := body req !! "playerId" in
    match games_get gameId st with
    | None => Some (sendJson 404 (JsonError "Game not found"), st)
    | Some game =>
        if decide (Some (Game.hostId game) ≠ playerId) then
          Some (sendJson 403 (JsonError "Only the host can start the game"), st)
        else if decide (length (Game.players game) ≠ 4) then
          Some (sendJson 400 (JsonError "Need exactly 4 players to start"), st)
        else
          let '(game', st1) := deal game st in
          Some (sendJson 200 JsonOk, store_back gameId game' st1)
    end
  else if decide (method req = "GET" ∧ pathname req = "/api/game/state") then
    let gameId := query req !! "gameId" in
    let playerId := query req !! "playerId" in
    match games_get gameId st with
    | None => Some (sendJson 404 (JsonError "Game not found"), st)
    | Some game =>
        if bool_decide (Exists (λ p, Some (Player.id p) = playerId) (Game.players game))
        then
          (* a member's id: [playerId] is a string here *)
          let '(view, game') := Projector.run game (default "" playerId) in
          Some (sendJson 200 (JsonView view), store_back gameId game' st)
        else
          Some (sendJson 403 (JsonError "You are not part of this game"), st)
    end
  else Some (notFound, st).

(** The states the server can be in: [boot], then one request after the
    other. *)
Inductive reachable : Server → Prop :=
| reachable_boot : reachable boot
| reachable_step fuel req resp st st' :
    reachable st →
    handleApi fuel req st = Some (resp, st') →
    reachable st'.

(** [later st st']: the server gets from [st] to [st'] by serving requests. *)
Inductive later (st : Server) : Server → Prop :=
| later_now : later st st
| later_step fuel req resp st1 st2 :
    later st st1 →
    handleApi fuel req st1 = Some (resp, st2) →
    later st st2.

(** What one request does to the store: nothing, or one of the three
    writes of [createGame], [joinGame] and [deal]. *)
Inductive store_effect (fuel : nat) (st st' : Server) : Prop :=
| effect_none :
    st' = st → store_effect fuel st st'
| effect_create name game player :
    createGame fuel name st = Some (game, player, st') →
    store_effect fuel st st'
| effect_join code game name :
    games st !! code = Some game →
    Game.status game = "lobby" →
    (length (Game.players game) < 4)%nat →
    games st' = <[code := (joinGame game name st).1.1]> (games st) →
    uuidCalls st' = S (uuidCalls st) →
    store_effect fuel st st'
| effect_start code game :
    games st !! code = Some game →
    length (Game.players game) = 4 →
    games st' = <[code := (deal game st).1]> (games st) →
    uuidCalls st' = uuidCalls st →
    store_effect fuel st st'.

End Entropy.

(** The shuffle of a whole deck is never unfolded by simplification. *)
Arguments shuffle : simpl never.
Arguments deal : simpl never.

(** ** The order of the specification on cards

    Suits in the order S < H < D < C, then ranks in the order
    A < K < Q < J < 10 < 9 < ... < 2, read off the card's text by
    [splitCard]. *)

Definition index_in (l : list string) (x : string) : option nat :=
  fst <$> list_find (λ y, y = x) l.

Definition canonical_key (card : string) : option (nat * nat) :=
  let '(rank, suit) := splitCard card in
  i ← index_in ["S"; "H"; "D"; "C"] suit;
  k ← index_in ["A"; "K"; "Q"; "J"; "10"; "9"; "8"; "7"; "6"; "5"; "4"; "3"; "2"] rank;
  Some (i, k).

Definition canonical_leb (a b : string) : bool :=
  match canonical_key a, canonical_key b with
  | Some (i, k), Some (j, l) => ((i <? j) || ((i =? j) && (k <=? l)))%nat
  | _, _ => false
  end.

Definition canonical_le (a b : string) : Prop := canonical_leb a b = true.

(** A player's seat as the deal orders it. *)
Definition seat_le (a b : Player.t) : Prop :=
  match Player.position a, Player.position b with
  | Some x, Some y => (x ≤ y)%nat
  | _, _ => False
  end.

(** ** What holds of every game in the store *)

(** The seats are 0, 1, 2, ... in the order the players arrived. *)
Definition seated_by_arrival (g : Game.t) : Prop :=
  Player.position <$> Game.players g = Some <$> seq 0 (length (Game.players g)).

(** The first player of the list, the creator, sits at seat 0 and is the
    host. *)
Definition creator_is_host (g : Game.t) : Prop :=
  ∃ creator, Game.players g !! 0 = Some creator
             ∧ Player.position creator = Some 0
             ∧ Game.hostId g = Player.id creator.

Definition lobby_ok (g : Game.t) : Prop :=
  seated_by_arrival g
  ∧ (1 ≤ length (Game.players g) ≤ 4)%nat
  ∧ creator_is_host g.

(** [pos] is the lowest of the seats 0..3 that no player of [g] holds. *)
Definition lowest_free_seat (g : Game.t) (pos : option nat) : Prop :=
  ∃ n, pos = Some n
       ∧ (n < 4)%nat
       ∧ (Some n ∉ Player.position <$> Game.players g)
       ∧ (∀ m, (m < n)%nat → Some m ∈ Player.position <$> Game.players g).

(** Every player id of [g] was issued by [randomUUID], and no two players
    share one. *)
Definition ids_ok (uuid_tape : nat → string) (st : Server) (g : Game.t) : Prop :=
  NoDup (Player.id <$> Game.players g)
  ∧ ∀ p, p ∈ Game.players g → ∃ k, (k < uuidCalls st)%nat ∧ Player.id p = uuid_tape k.

(** The hand stored for a player, empty when there is none. *)
Definition hand_of (g : Game.t) (p : Player.t) : list string :=
  default [] (Game.hands g !! Player.id p).

(** The comparator places [x] and [y] the way [R] orders them: [x] goes
    after [y] only when the comparator says so, and then [R y x]. *)
Definition placed {A} (comparefn : A → A → option Z) (R : relation A) (x y : A) : Prop :=
  if (0 <? JsArray.SortCompare comparefn x y)%Z then R y x else R x y.

(** ** Sample data *)

Definition sample_hand : list string := ["3H"; "AS"; "10D"; "KS"].

Definition sample_players : list Player.t :=
  [Player.mk "p0" "Ann" (Some 0); Player.mk "p1" "Bob" (Some 1);
   Player.mk "p2" "Cid" (Some 2); Player.mk "p3" "Dee" (Some 3)].

Definition sample_game (hand1 hand2 : list string) : Game.t :=
  Game.mk "DLT29" "p0" "started" sample_players
    (<["p1" := hand1]> (<["p2" := hand2]> ∅)).

(** The game of four in the lobby, before any deal. *)
Definition sample_lobby : Game.t :=
  Game.mk "DLT29" "p0" "lobby" sample_players ∅.

Definition sample_random (k : nat) : nat := k * 7 + 3.
Definition sample_uuid (k : nat) : string :=
  "p" +:+ String (Ascii.ascii_of_nat (48 + k)) "".

Definition post (path : string) (fields : list (string * string)) : Request :=
  mkRequest "POST" path (list_to_map fields) ∅.
Definition get (path : string) (fields : list (string * string)) : Request :=
  mkRequest "GET" path ∅ (list_to_map fields).

(** Runs requests one after the other on the sample tapes. *)
Fixpoint serve (reqs : list Request) (st : Server) : list Response * Server :=
  match reqs with
  | [] => ([], st)
  | req :: reqs' =>
      match handleApi sample_random sample_uuid 1 req st with
      | Some (resp, st1) =>
          let '(out, st2) := serve reqs' st1 in (resp :: out, st2)
      | None => ([], st)
      end
  end.

(** Ann creates the game (its code comes out as DLT29), Bob, Cid and Dee
    join. *)
Definition lobby_of_four : Server :=
  snd (serve [post "/api/game/create" [("name", "Ann")];
              post "/api/game/join" [("gameId", "DLT29"); ("name", "Bob")];
              post "/api/game/join" [("gameId", "DLT29"); ("name", "Cid")];
              post "/api/game/join" [("gameId", "DLT29"); ("name", "Dee")]] boot).

Definition start_by_host : Request :=
  post "/api/game/start" [("gameId", "DLT29"); ("playerId", "p0")].

Definition dealt_once : Server := snd (serve [start_by_host] lobby_of_four).

(** ** The page script (the client of the four routes)

    The functions of the script served with the page that decide what is
    sent to the server and what is shown: the forms ([onCreate], [onJoin]),
    the start button ([onStart], [updateStartButton]), the poll
    ([pollOnce]), the table ([seatFor], [updateSeats]), the status line
    ([formatStatus]) and the card faces ([parseCard]). What they write into
    the page is returned as a value. *)

Module Client.

(** [state.session]: what [saveSession] keeps of an answer. *)
Record Session := mkSession { gameId : string; playerId : string; name : string }.

(** [res.ok]: a status from 200 to 299. *)
Definition res_ok (resp : Response) : bool :=
  ((200 <=? statusCode resp) && (statusCode resp <=? 299))%nat.

(** [onCreate] up to its [fetch]: the request sent, [None] when the handler
    returns before sending. *)
Definition onCreate (nameInput : string) : option Request :=
  let name := JsString.trim nameInput in
  if decide (name = "") then None
  else Some (post "/api/game/create" [("name", name)]).


(** The end of [onCreate] and [onJoin]: the session saved from the answer,
    none when [res.ok] is false (the handler throws). The two routes answer
    200 with [{ gameId, playerId, position }] only. *)
Definition saveSession (name : string) (resp : Response) : option Session :=
  if res_ok resp then
    match payload resp with
    | JsonSeat gameId playerId _ => Some (mkSession gameId playerId name)
    | _ => None
    end
  else None.

(** [onStart] up to its [fetch]. *)
Definition onStart (session : option Session) : option Request :=
  match session with
  | None => None
  | Some s =>
      Some (post "/api/game/start" [("gameId", gameId s); ("playerId", playerId s)])
  end.

(** [pollOnce] up to its [fetch]; the query string is built by
    [URLSearchParams] and read back by the server's [url.parse]. *)
Definition pollOnce (session : option Session) : option Request :=
  match session with
  | None => None
  | Some s =>
      Some (get "/api/game/state" [("gameId", gameId s); ("playerId", playerId s)])
  end.

(** [updateStartButton]: the value given to [els.startGame.disabled];
    [None] is the call without a game. *)
Definition updateStartButton (game : option View.t) : bool :=
  match game with
  | None => true
  | Some g =>
      let isHost :=
        existsb (λ p, PlayerView.isHost p && PlayerView.isYou p) (View.players g) in
      let ready :=
        (length (View.players g) =? 4)%nat && bool_decide (View.status g = "lobby") in
      negb (isHost && ready)
  end.

Definition formatStatus (status : string) : string :=
  if decide (status = "started") then "Cards dealt"
  else if decide (status = "lobby") then "Lobby"
  else "Idle".

(** [seatFor(position, you)]. The remainder [%] takes the sign of its left
    operand; an index that is [NaN] or negative reads [undefined]. *)
Definition seatFor (position you : option Z) : option string :=
  match position, you with
  | Some p, Some y =>
      let relative := Z.rem (p - y + 4) 4 in
      if (relative <? 0)%Z then None
      else ["south"; "west"; "north"; "east"] !! Z.to_nat relative
  | _, _ => None
  end.

(** What [updateSeats] puts into a seat of the table. *)
Inductive SeatCards :=
| NoCards
| YourHandBelow
| CardBacks (n : nat).

Record Seat := mkSeat { seatLabel : string; seatCards : SeatCards }.

(** [els.seats]: the four seats of the page. *)
Definition seatNames : list string := ["north"; "south"; "east"; "west"].

(** [you ? you.position : 0]. *)
Definition yourPos (players : list PlayerView.t) : option Z :=
  match find PlayerView.isYou players with
  | Some you => Z.of_nat <$> PlayerView.position you
  | None => Some 0%Z
  end.

(** The label of a seat: name (or Seat), then (Host), then (You), joined by
    spaces. *)
Definition seatLabelOf (player : PlayerView.t) : string :=
  String.concat " "
    ([if decide (PlayerView.name player = "") then "Seat" else PlayerView.name player]
     ++ (if PlayerView.isHost player then ["(Host)"] else [])
     ++ (if PlayerView.isYou player then ["(You)"] else []))%list.

(** The cards of a seat; [lastStatus] is [state.lastGame?.status]. *)
Definition seatCardsOf (lastStatus : option string) (player : PlayerView.t) : SeatCards :=
  if PlayerView.isYou player then YourHandBelow
  else if decide (lastStatus = Some "started") then CardBacks (PlayerView.handSize player)
  else NoCards.

(** [updateSeats(players)]: every seat is reset, then each player in turn
    is written into the seat [seatFor] names, when there is such a seat. *)
Definition updateSeats (lastStatus : option string) (players : list PlayerView.t)
  : gmap string Seat :=
  let waiting : gmap string Seat :=
    list_to_map ((λ seatName, (seatName, mkSeat "Waiting…" NoCards)) <$> seatNames) in
  foldl
    (λ seats player,
       match seatFor (Z.of_nat <$> PlayerView.position player) (yourPos players) with
       | Some seatName =>
           if bool_decide (seatName ∈ seatNames)
           then <[seatName := mkSeat (seatLabelOf player) (seatCardsOf lastStatus player)]> seats
           else seats
       | None => seats
       end)
    waiting players.

(** [renderState(game)] as far as the seats go: [state.lastGame] is the
    game being rendered. *)
Definition renderSeats (game : View.t) : gmap string Seat :=
  updateSeats (Some (View.status game)) (View.players game).

Record CardFace := mkCardFace { rank : string; suitSymbol : string; color : string }.

(** The object literal [map] of [parseCard]: symbol and colour of a suit. *)
Definition suitInfo (suit : string) : option (string * string) :=
  if decide (suit = "S") then Some ("♠", "#0d1b2c")
  else if decide (suit = "C") then Some ("♣", "#0d1b2c")
  else if decide (suit = "H") then Some ("♥", "#c03434")
  else if decide (suit = "D") then Some ("♦", "#c03434")
  else None.

Definition parseCard (card : string) : CardFace :=
  let suit := JsString.slice card (-1) None in
  let rank := JsString.slice card 0 (Some (-1)%Z) in
  let '(symbol, color) := default (suit, "#0d1b2c") (suitInfo suit) in
  mkCardFace rank symbol color.

End Client.

(** ** More of what holds of the store *)

(** The alphabet of [generateCode], character by character. *)
Definition code_alphabet : list Ascii.ascii := String.list_ascii_of_string chars.

(** A code as [generateCode] makes them: five characters of the alphabet. *)
Definition code_shaped (code : string) : Prop :=
  String.length code = 5
  ∧ Forall (λ c, c ∈ code_alphabet) (String.list_ascii_of_string code).

(** What the join route turns the code it receives into. *)
Definition normalize_code (code : string) : string :=
  JsString.toUpperCase (JsString.trim code).

(** A game of the store under [code]: it carries its code, it is in the
    lobby without any hand, or started with four players who each hold 13
    cards; its players have names that are trimmed and not empty. *)
Definition game_ok (code : string) (g : Game.t) : Prop :=
  Game.id g = code
  ∧ code_shaped code
  ∧ ((Game.status g = "lobby" ∧ Game.hands g = ∅)
     ∨ (Game.status g = "started"
        ∧ length (Game.players g) = 4
        ∧ ∀ p, p ∈ Game.players g →
               ∃ h, Game.hands g !! Player.id p = Some h ∧ length h = 13))
  ∧ Forall (λ p, Player.name p ≠ "" ∧ JsString.trim (Player.name p) = Player.name p)
      (Game.players g).

(** The loop of [shuffle] on a list of draws instead of a tape. *)
Fixpoint shuffle_draws (i : nat) (draws : list nat) (array : list string) : list string :=
  match i, draws with
  | S i', j :: draws' => shuffle_draws i' draws' (JsArray.swap array i (j `mod` (i + 1)))
  | _, _ => array
  end.

(** The tape that plays [draws] from call [start] on. *)
Definition tape_of (start : nat) (draws : list nat) (k : nat) : nat :=
  nth (k - start) draws 0.

(** The body of the [forEach] of [updateSeats], for a seat name [key] and
    a seat content [val] computed from the player. *)
Definition seat_step (key : PlayerView.t → option string) (val : PlayerView.t → Client.Seat)
    (seats : gmap string Client.Seat) (player : PlayerView.t) : gmap string Client.Seat :=
  match key player with
  | Some seatName =>
      if bool_decide (seatName ∈ Client.seatNames)
      then <[seatName := val player]> seats
      else seats
  | None => seats
  end.

(** ** Examples *)

Example buildDeck_head : take 3 buildDeck = ["AS"; "KS"; "QS"].
Proof. reflexivity. Qed.

Example splitCard_10H : splitCard "10H" = ("10", "H").
Proof. reflexivity. Qed.

Example sort_sample :
  JsArray.sort cardComparator sample_hand = ["AS"; "KS"; "3H"; "10D"].
Proof. reflexivity. Qed.

Example trim_upper_sample : JsString.toUpperCase (JsString.trim "  ab2cd ") = "AB2CD".
Proof. reflexivity. Qed.

Example lobby_of_four_players :
  Game.players <$> games lobby_of_four !! "DLT29" = Some sample_players.
Proof. vm_compute. reflexivity. Qed.

(** Sorting the stored array itself would show in the game: the memory of
    the projector tells the two apart. *)
Example sort_of_stored_hand_is_visible :
  let m := Projector.mkMemory (sample_game sample_hand []) [] in
  Game.hands (Projector.game (Projector.sort cardComparator (Projector.StoredHand "p1") m).2)
    !! "p1" = Some ["AS"; "KS"; "3H"; "10D"].
Proof. vm_compute. reflexivity. Qed.

(** ** Arrays: sorting and swapping *)

Section SortFacts.
Context {A : Type} (comparefn : A → A → option Z).

Lemma sort_insert_perm x a : JsArray.sort_insert comparefn x a ≡ₚ x :: a.
Proof.
  induction a as [|y a IH]; simpl; [done|].
  destruct (0 <? _)%Z; [|done].
  rewrite IH. apply perm_swap.
Qed.

Lemma sort_perm a : JsArray.sort comparefn a ≡ₚ a.
Proof.
  induction a as [|x a IH]; simpl; [done|].
  by rewrite sort_insert_perm, IH.
Qed.

Lemma sort_length a : length (JsArray.sort comparefn a) = length a.
Proof. by rewrite sort_perm. Qed.

Lemma sort_insert_HdRel (R : relation A) z x a :
  R z x → HdRel R z a → HdRel R z (JsArray.sort_insert comparefn x a).
Proof.
  intros Hzx Hza. destruct a as [|y a]; simpl; [by constructor|].
  destruct (0 <? _)%Z; constructor; [by inversion Hza | done].
Qed.

Lemma sort_insert_Sorted (R : relation A) x a :
  Forall (placed comparefn R x) a → Sorted R a → Sorted R (JsArray.sort_insert comparefn x a).
Proof.
  induction a as [|y a IH]; simpl; intros Hx Hs.
  - repeat constructor.
  - apply Forall_cons in Hx as [Hxy Hx]. unfold placed in Hxy.
    apply Sorted_inv in Hs as [Hs Hy].
    destruct (0 <? _)%Z.
    + constructor; [by apply IH | by apply sort_insert_HdRel].
    + repeat constructor; done.
Qed.

Lemma sort_Sorted (R : relation A) a :
  (∀ x y, x ∈ a → y ∈ a → placed comparefn R x y) → Sorted R (JsArray.sort comparefn a).
Proof.
  induction a as [|x a IH]; simpl; intros H; [constructor|].
  apply sort_insert_Sorted.
  - apply Forall_forall. intros y Hy. rewrite sort_perm in Hy.
    apply H; [left | by right].
  - apply IH. intros y z Hy Hz. apply H; by right.
Qed.
End SortFacts.

Lemma swap_head_perm {A} (a : list A) (x y : A) j :
  a !! j = Some y → y :: <[j:=x]> a ≡ₚ x :: a.
Proof.
  revert j. induction a as [|z a IH]; intros [|j] Hj; simplify_eq/=.
  - apply perm_swap.
  - rewrite (perm_swap z y), (perm_swap z x). f_equiv. by apply IH.
Qed.

Lemma swap_perm {A} (a : list A) i j : JsArray.swap a i j ≡ₚ a.
Proof.
  unfold JsArray.swap.
  destruct (a !! i) as [x|] eqn:Hi; [|done].
  destruct (a !! j) as [y|] eqn:Hj; [|done].
  revert i j Hi Hj. induction a as [|z a IH]; intros [|i] [|j] Hi Hj; simplify_eq/=.
  - done.
  - by apply swap_head_perm.
  - by apply swap_head_perm.
  - f_equiv. by apply IH.
Qed.

(** ** The deck and the text of a card *)

Lemma buildDeck_length : length buildDeck = 52.
Proof. reflexivity. Qed.

Lemma buildDeck_NoDup : NoDup buildDeck.
Proof. apply (bool_decide_unpack _). vm_compute. reflexivity. Qed.

Lemma buildDeck_elem c :
  c ∈ buildDeck ↔ ∃ rank suit, rank ∈ ranks ∧ suit ∈ suits ∧ c = card_of rank suit.
Proof.
  unfold buildDeck. rewrite list_elem_of_bind. split.
  - intros (suit & Hc & Hs). apply list_elem_of_bind in Hc as (rank & Hc & Hr).
    apply list_elem_of_singleton in Hc. eauto.
  - intros (rank & suit & Hr & Hs & ->). exists suit. split; [|done].
    apply list_elem_of_bind. exists rank. split; [|done]. by apply list_elem_of_singleton.
Qed.

(** C9. Encoding a rank and a suit as the card text [rank ++ suit] (the
    template literal of [buildDeck]) and decoding it with [splitCard] gives
    the rank and the suit back, for each of the 13 ranks and 4 suits; the
    encoded text is one of the 52 cards of the deck. *)
Theorem splitCard_card_of (rank suit : string) :
  rank ∈ ranks → suit ∈ suits →
  splitCard (card_of rank suit) = (rank, suit) ∧ card_of rank suit ∈ buildDeck.
Proof.
  intros Hr Hs. split; [|apply buildDeck_elem; eauto].
  unfold ranks, suits in *.
  repeat (apply elem_of_cons in Hr as [->|Hr]); [..|by apply elem_of_nil in Hr];
    repeat (apply elem_of_cons in Hs as [->|Hs]); try (by apply elem_of_nil in Hs);
    reflexivity.
Qed.

(** The card 10H of the specification. *)
Lemma splitCard_card_of_10H :
  ("10" ∈ ranks ∧ "H" ∈ suits) ∧
  splitCard "10H" = ("10", "H") ∧ "10H" ∈ buildDeck.
Proof.
  assert (Hr : "10" ∈ ranks) by (apply (bool_decide_unpack _); vm_compute; reflexivity).
  assert (Hs : "H" ∈ suits) by (apply (bool_decide_unpack _); vm_compute; reflexivity).
  split; [done|]. exact (splitCard_card_of "10" "H" Hr Hs).
Defined.

Lemma substring_all s : String.substring 0 (String.length s) s = s.
Proof. induction s as [|a s IH]; simpl; [done|]. by rewrite IH. Qed.

Lemma substring_split s m :
  (m ≤ String.length s)%nat →
  String.substring 0 m s +:+ String.substring m (String.length s - m) s = s.
Proof.
  revert m. induction s as [|a s IH]; intros [|m] Hm; simpl in *; try lia.
  - done.
  - by rewrite substring_all.
  - change (String a (String.substring 0 m s +:+
                        String.substring m (String.length s - m) s) = String a s).
    f_equal. apply IH. lia.
Qed.

(** A card text is its rank followed by its suit, as [splitCard] cuts it. *)
Lemma splitCard_join card : (splitCard card).1 +:+ (splitCard card).2 = card.
Proof.
  unfold splitCard, JsString.slice, JsString.relative_index. cbn [fst snd].
  set (n := String.length card).
  replace (Z.to_nat (Z.min 0 (Z.of_nat n))) with 0%nat by lia.
  replace (if (-1 <? 0)%Z then Z.to_nat (Z.max (Z.of_nat n + -1) 0)
           else Z.to_nat (Z.min (-1) (Z.of_nat n))) with (n - 1)%nat
    by (change (-1 <? 0)%Z with true; cbv iota; lia).
  rewrite Nat.sub_0_r. apply substring_split. lia.
Qed.

Lemma index_in_lookup l x i : index_in l x = Some i → l !! i = Some x.
Proof.
  unfold index_in. intros H. apply fmap_Some in H as ([j y] & Hfind & ->).
  apply list_find_Some in Hfind as (Hl & -> & _). done.
Qed.

Lemma canonical_key_inj a b k :
  canonical_key a = Some k → canonical_key b = Some k → a = b.
Proof.
  unfold canonical_key. intros Ha Hb.
  rewrite <- (splitCard_join a), <- (splitCard_join b).
  destruct (splitCard a) as [ra sa], (splitCard b) as [rb sb]. cbn [fst snd].
  apply bind_Some in Ha as (i & Hi & Ha). apply bind_Some in Ha as (j & Hj & Ha).
  apply bind_Some in Hb as (i' & Hi' & Hb). apply bind_Some in Hb as (j' & Hj' & Hb).
  simplify_eq.
  apply index_in_lookup in Hi, Hj, Hi', Hj'. congruence.
Qed.

Lemma canonical_le_trans : Transitive canonical_le.
Proof.
  intros a b c. unfold canonical_le, canonical_leb.
  destruct (canonical_key a) as [[i k]|], (canonical_key b) as [[j l]|],
    (canonical_key c) as [[m n]|]; try done.
  rewrite !orb_true_iff, !andb_true_iff, !Nat.ltb_lt, !Nat.eqb_eq, !Nat.leb_le. lia.
Qed.

Lemma canonical_le_antisym : AntiSymm (=) canonical_le.
Proof.
  intros a b. unfold canonical_le, canonical_leb.
  destruct (canonical_key a) as [[i k]|] eqn:Ha, (canonical_key b) as [[j l]|] eqn:Hb;
    try done.
  rewrite !orb_true_iff, !andb_true_iff, !Nat.ltb_lt, !Nat.eqb_eq, !Nat.leb_le.
  intros H1 H2. assert (i = j ∧ k = l) as [-> ->] by lia.
  by eapply canonical_key_inj.
Qed.

(** On the cards of the deck the comparator orders as the specification
    does: checked on all 52 x 52 pairs. *)
Lemma cardComparator_canonical a b :
  a ∈ buildDeck → b ∈ buildDeck → placed cardComparator canonical_le a b.
Proof.
  revert a b.
  assert (H : Forall (λ a, Forall (λ b,
             (if (0 <? JsArray.SortCompare cardComparator a b)%Z
              then canonical_leb b a else canonical_leb a b) = true) buildDeck) buildDeck).
  { apply (bool_decide_unpack _). vm_compute. reflexivity. }
  intros a b Ha Hb. rewrite Forall_forall in H. specialize (H a Ha).
  rewrite Forall_forall in H. specialize (H b Hb).
  unfold placed, canonical_le. by destruct (0 <? _)%Z.
Qed.

(** ** The view projector *)

Lemma Projector_run_eq game playerId :
  Projector.run game playerId =
  (View.mk (Game.id game) (Game.status game) (Game.hostId game)
     (Projector.projectPlayer game playerId <$> Game.players game)
     (JsArray.sort cardComparator (default [] (Game.hands game !! playerId))),
   game).
Proof.
  unfold Projector.run, Projector.hand_or_empty; simpl.
  destruct (Game.hands game !! playerId) as [h|] eqn:Hh; simpl.
  - by rewrite Hh.
  - done.
Qed.

Lemma projectGameForPlayer_hand game playerId :
  View.hand (projectGameForPlayer game playerId) =
  JsArray.sort cardComparator (default [] (Game.hands game !! playerId)).
Proof. unfold projectGameForPlayer. by rewrite Projector_run_eq. Qed.

Lemma handSize_eq g1 g2 q :
  length <$> Game.hands g1 !! q = length <$> Game.hands g2 !! q →
  Projector.handSize g1 q = Projector.handSize g2 q.
Proof.
  unfold Projector.handSize.
  destruct (Game.hands g1 !! q), (Game.hands g2 !! q); simpl; congruence.
Qed.

(** C3. The view projected for [p] carries, for every player, the id, the
    name, the seat, [isHost], [isYou] and the size of the stored hand, and as
    [hand] a rearrangement of [p]'s own stored hand. Two games that agree on
    code, status, host, players, [p]'s own hand and the size of every other
    hand project to the same view for [p]: the contents of the other hands do
    not reach it. *)
Theorem view_noninterference (g1 g2 : Game.t) (p : string) :
  Game.id g1 = Game.id g2 →
  Game.status g1 = Game.status g2 →
  Game.hostId g1 = Game.hostId g2 →
  Game.players g1 = Game.players g2 →
  Game.hands g1 !! p = Game.hands g2 !! p →
  (∀ q, q ≠ p → length <$> Game.hands g1 !! q = length <$> Game.hands g2 !! q) →
  projectGameForPlayer g1 p = projectGameForPlayer g2 p
  ∧ View.hand (projectGameForPlayer g1 p) ≡ₚ default [] (Game.hands g1 !! p)
  ∧ View.players (projectGameForPlayer g1 p) =
      (λ pl, PlayerView.mk (Player.id pl) (Player.name pl) (Player.position pl)
               (bool_decide (Player.id pl = Game.hostId g1))
               (bool_decide (Player.id pl = p))
               (default 0 (length <$> Game.hands g1 !! Player.id pl)))
      <$> Game.players g1.
Proof.
  intros Hid Hstatus Hhost Hplayers Hown Hsizes.
  unfold projectGameForPlayer. rewrite !Projector_run_eq. simpl.
  split; [|split].
  - rewrite Hid, Hstatus, Hhost, Hplayers, Hown. f_equal.
    apply list_fmap_ext. intros _ pl _. unfold Projector.projectPlayer.
    rewrite Hhost. f_equal. apply handSize_eq.
    destruct (decide (Player.id pl = p)) as [->|Hne]; [by rewrite Hown | by apply Hsizes].
  - apply sort_perm.
  - apply list_fmap_ext. intros _ pl _. unfold Projector.projectPlayer, Projector.handSize.
    by destruct (Game.hands g1 !! Player.id pl).
Qed.

(** Two sample games that differ in the hand of p2 only, seen by p1. *)
Lemma view_noninterference_sample :
  projectGameForPlayer (sample_game sample_hand ["2C"; "9D"]) "p1" =
  projectGameForPlayer (sample_game sample_hand ["QH"; "4S"]) "p1"
  ∧ View.hand (projectGameForPlayer (sample_game sample_hand ["2C"; "9D"]) "p1")
    ≡ₚ sample_hand.
Proof.
  assert (Hsizes : ∀ q, q ≠ "p1" →
            length <$> Game.hands (sample_game sample_hand ["2C"; "9D"]) !! q
            = length <$> Game.hands (sample_game sample_hand ["QH"; "4S"]) !! q).
  { intros q Hq. simpl.
    rewrite !lookup_insert_ne by done.
    destruct (decide ("p2" = q)) as [<-|Hne].
    - by rewrite !lookup_insert_eq.
    - by rewrite !lookup_insert_ne. }
  destruct (view_noninterference
              (sample_game sample_hand ["2C"; "9D"])
              (sample_game sample_hand ["QH"; "4S"]) "p1"
              eq_refl eq_refl eq_refl eq_refl eq_refl Hsizes) as (H1 & H2 & _).
  split; [exact H1 | exact H2].
Defined.

(** C10. The call of [projectGameForPlayer] leaves the game as it found it:
    code, status, host, players and every stored hand, in its stored order
    (the array that is sorted is the copy). A state request therefore answers
    without changing the server. *)
Theorem projection_preserves_game :
  (∀ game playerId, (Projector.run game playerId).2 = game)
  ∧ (∀ random_tape uuid_tape fuel b q st,
       ∃ resp,
         handleApi random_tape uuid_tape fuel (mkRequest "GET" "/api/game/state" b q) st
         = Some (resp, st)).
Proof.
  split.
  - intros. by rewrite Projector_run_eq.
  - intros. unfold handleApi. simpl.
    destruct (games_get _ st) as [game|] eqn:Hget; [|eauto].
    destruct (bool_decide _); [|eauto].
    rewrite Projector_run_eq. eexists. do 2 f_equal.
    unfold games_get in Hget. destruct (q !! "gameId") as [k|]; simpl in *; [|done].
    unfold set_games. rewrite insert_id by done. by destruct st.
Qed.

(** C7 (amended). A stored hand made of cards of the deck is projected as a
    rearrangement of itself in the specification's order: suits
    S < H < D < C first, ranks A < K < Q < J < 10 < ... < 2 second, every
    card before all the cards that follow it; it is the only rearrangement
    of the hand in that order. The hand 3H, AS, 10D, KS is projected as
    AS, KS, 3H, 10D. *)
Theorem projected_hand_sorted (game : Game.t) (playerId : string) (hand : list string) :
  Game.hands game !! playerId = Some hand →
  Forall (λ c, c ∈ buildDeck) hand →
  View.hand (projectGameForPlayer game playerId) ≡ₚ hand
  ∧ StronglySorted canonical_le (View.hand (projectGameForPlayer game playerId))
  ∧ (∀ l, l ≡ₚ hand → Sorted canonical_le l →
          l = View.hand (projectGameForPlayer game playerId))
  ∧ (hand = ["3H"; "AS"; "10D"; "KS"] →
     View.hand (projectGameForPlayer game playerId) = ["AS"; "KS"; "3H"; "10D"]).
Proof.
  intros Hhand Hcards. rewrite projectGameForPlayer_hand, Hhand. simpl.
  assert (Hsorted : Sorted canonical_le (JsArray.sort cardComparator hand)).
  { apply sort_Sorted. intros a b Ha Hb. rewrite Forall_forall in Hcards.
    apply cardComparator_canonical; auto. }
  pose proof canonical_le_trans as Htrans.
  pose proof canonical_le_antisym as Hanti.
  split; [apply sort_perm|]. split; [by apply Sorted_StronglySorted|]. split.
  - intros l Hl Hs. apply (Sorted_unique canonical_le); [done..|].
    by rewrite Hl, sort_perm.
  - by intros ->.
Qed.

(** The hand of the specification's scenario, in a sample game. *)
Lemma projected_hand_sorted_sample :
  (Game.hands (sample_game sample_hand []) !! "p1" = Some sample_hand
   ∧ Forall (λ c, c ∈ buildDeck) sample_hand)
  ∧ StronglySorted canonical_le
      (View.hand (projectGameForPlayer (sample_game sample_hand []) "p1"))
  ∧ View.hand (projectGameForPlayer (sample_game sample_hand []) "p1")
    = ["AS"; "KS"; "3H"; "10D"].
Proof.
  assert (Hcards : Forall (λ c, c ∈ buildDeck) sample_hand).
  { apply (bool_decide_unpack _). vm_compute. reflexivity. }
  destruct (projected_hand_sorted (sample_game sample_hand []) "p1" sample_hand
              eq_refl Hcards) as (_ & H2 & _ & H4).
  split; [split; [reflexivity | exact Hcards]|].
  split; [exact H2 | exact (H4 eq_refl)].
Defined.

(** The projection of that hand is not the order KS, AS, 10D, 3H. *)
Lemma sample_hand_not_KS_first :
  Game.hands (sample_game sample_hand []) !! "p1" = Some ["3H"; "AS"; "10D"; "KS"]
  ∧ View.hand (projectGameForPlayer (sample_game sample_hand []) "p1")
    ≠ ["KS"; "AS"; "10D"; "3H"].
Proof. split; [reflexivity|]. vm_compute. intros H. discriminate H. Qed.

(** ** The shuffle and the deal *)

Section ShuffleFacts.
Variable random_tape : nat → nat.

Lemma shuffle_from_perm i array st :
  (shuffle_from random_tape i array st).1 ≡ₚ array.
Proof.
  revert array st. induction i as [|i IH]; intros array st; simpl; [done|].
  rewrite IH. apply swap_perm.
Qed.

Lemma shuffle_perm array st : (shuffle random_tape array st).1 ≡ₚ array.
Proof. apply shuffle_from_perm. Qed.

Lemma shuffle_from_server i array st :
  games (shuffle_from random_tape i array st).2 = games st
  ∧ uuidCalls (shuffle_from random_tape i array st).2 = uuidCalls st.
Proof.
  revert array st. induction i as [|i IH]; intros array st; simpl; [done|].
  split; [rewrite (proj1 (IH _ _)) | rewrite (proj2 (IH _ _))]; done.
Qed.

Lemma shuffle_server array st :
  games (shuffle random_tape array st).2 = games st
  ∧ uuidCalls (shuffle random_tape array st).2 = uuidCalls st.
Proof. apply shuffle_from_server. Qed.

End ShuffleFacts.

(** From here on the shuffle is used through the lemmas above only. *)
Opaque shuffle.

Lemma deal_from_frame deck idx ps g :
  Game.id (deal_from deck idx ps g) = Game.id g
  ∧ Game.hostId (deal_from deck idx ps g) = Game.hostId g
  ∧ Game.status (deal_from deck idx ps g) = Game.status g
  ∧ Game.players (deal_from deck idx ps g) = Game.players g.
Proof.
  revert idx g. induction ps as [|p ps IH]; intros idx g; simpl; [done|].
  pose proof (IH (S idx) (Game.set_hands
    (<[Player.id p := JsArray.slice deck (idx * 13) (idx * 13 + 13)]> (Game.hands g)) g))
    as (H1 & H2 & H3 & H4).
  by rewrite H1, H2, H3, H4.
Qed.

Lemma deal_from_other deck idx ps g q :
  q ∉ (Player.id <$> ps) →
  Game.hands (deal_from deck idx ps g) !! q = Game.hands g !! q.
Proof.
  revert idx g. induction ps as [|p ps IH]; intros idx g Hq; simpl; [done|].
  rewrite fmap_cons, not_elem_of_cons in Hq. destruct Hq as [Hne Hq].
  rewrite IH by done. simpl. by rewrite lookup_insert_ne.
Qed.

Lemma deal_from_lookup deck idx ps g k p :
  NoDup (Player.id <$> ps) →
  ps !! k = Some p →
  Game.hands (deal_from deck idx ps g) !! Player.id p
  = Some (JsArray.slice deck ((idx + k) * 13) ((idx + k) * 13 + 13)).
Proof.
  revert idx g k. induction ps as [|p' ps IH]; intros idx g k Hnd Hk; [done|].
  rewrite fmap_cons in Hnd. apply NoDup_cons in Hnd as [Hfresh Hnd].
  destruct k as [|k]; simpl in *.
  - simplify_eq. rewrite deal_from_other by done. simpl.
    rewrite lookup_insert_eq. by rewrite Nat.add_0_r.
  - rewrite (IH (S idx) _ k) by done. do 3 f_equal; lia.
Qed.

Lemma deal_from_dom deck idx ps g q :
  is_Some (Game.hands (deal_from deck idx ps g) !! q)
  ↔ q ∈ (Player.id <$> ps) ∨ is_Some (Game.hands g !! q).
Proof.
  revert idx g. induction ps as [|p ps IH]; intros idx g; simpl.
  - rewrite elem_of_nil. tauto.
  - rewrite IH. simpl. rewrite elem_of_cons.
    destruct (decide (Player.id p = q)) as [->|Hne].
    + rewrite lookup_insert_eq. split; [auto | intros _; right; by eexists].
    + rewrite lookup_insert_ne by done.
      split; [intros [H|H]; auto | intros [[H|H]|H]; [congruence | auto..]].
Qed.

Section DealFacts.
Variable random_tape : nat → nat.

Lemma deal_eq game st :
  deal random_tape game st =
  (Game.set_status "started"
     (deal_from (shuffle random_tape buildDeck st).1 0
        (JsArray.sort byPosition (Game.players game)) (Game.set_hands ∅ game)),
   (shuffle random_tape buildDeck st).2).
Proof.
  unfold deal. destruct (shuffle random_tape buildDeck st) as [deck st1]. reflexivity.
Qed.

Lemma deal_frame game st :
  Game.id (deal random_tape game st).1 = Game.id game
  ∧ Game.hostId (deal random_tape game st).1 = Game.hostId game
  ∧ Game.status (deal random_tape game st).1 = "started"
  ∧ Game.players (deal random_tape game st).1 = Game.players game
  ∧ games (deal random_tape game st).2 = games st
  ∧ uuidCalls (deal random_tape game st).2 = uuidCalls st.
Proof.
  rewrite deal_eq.
  pose proof (shuffle_server random_tape buildDeck st) as [H5 H6].
  destruct (shuffle random_tape buildDeck st) as [deck st1]. cbn [fst snd] in *.
  pose proof (deal_from_frame deck 0
                (JsArray.sort byPosition (Game.players game)) (Game.set_hands ∅ game))
    as (H1 & H2 & _ & H4).
  unfold Game.set_status. cbn [Game.id Game.hostId Game.status Game.players].
  rewrite H1, H2, H4. repeat split; assumption.
Qed.

End DealFacts.

Lemma slice_lookup {A} (d : list A) s n c :
  c ∈ JsArray.slice d s (s + n) ↔ ∃ m, (s ≤ m < s + n)%nat ∧ d !! m = Some c.
Proof.
  unfold JsArray.slice. replace (s + n - s)%nat with n by lia.
  rewrite list_elem_of_lookup. split.
  - intros [i Hi]. apply lookup_take_Some in Hi as [Hi Hlt].
    rewrite lookup_drop in Hi. exists (s + i)%nat. split; [lia | done].
  - intros (m & Hm & Hc). exists (m - s)%nat.
    rewrite lookup_take_lt by lia. rewrite lookup_drop.
    by replace (s + (m - s))%nat with m by lia.
Qed.

Lemma slice_length {A} (d : list A) s n :
  (s + n ≤ length d)%nat → length (JsArray.slice d s (s + n)) = n.
Proof.
  intros H. unfold JsArray.slice. rewrite length_take, length_drop. lia.
Qed.

Lemma four_slices {A} (d : list A) :
  length d = 52 →
  (JsArray.slice d 0 13 ++ JsArray.slice d 13 26 ++ JsArray.slice d 26 39
     ++ JsArray.slice d 39 52)%list = d.
Proof.
  intros Hlen. unfold JsArray.slice. simpl Nat.sub. rewrite drop_0.
  rewrite !app_assoc.
  rewrite (take_take_drop d 13 13). change (13 + 13)%nat with 26.
  rewrite (take_take_drop d 26 13). change (26 + 13)%nat with 39.
  rewrite (take_take_drop d 39 13). change (39 + 13)%nat with 52.
  apply take_ge. lia.
Qed.

(** Sorting an array the comparator already finds in order changes
    nothing. *)
Lemma sort_in_order {A} (comparefn : A → A → option Z) (a : list A) :
  Sorted (λ x y, (JsArray.SortCompare comparefn x y ≤ 0)%Z) a →
  JsArray.sort comparefn a = a.
Proof.
  induction 1 as [|x a Hs IH Hhd]; simpl; [done|].
  rewrite IH. destruct Hhd as [|y a Hxy]; simpl; [done|].
  destruct (0 <? _)%Z eqn:Hcmp; [lia | done].
Qed.

Lemma seats_in_order (ps : list Player.t) (k : nat) :
  Player.position <$> ps = Some <$> seq k (length ps) →
  Sorted (λ x y, (JsArray.SortCompare byPosition x y ≤ 0)%Z) ps.
Proof.
  revert k. induction ps as [|p ps IH]; intros k Hpos; [constructor|].
  simpl in Hpos. injection Hpos as Hp Hrest.
  constructor; [by apply (IH (S k))|].
  destruct ps as [|p' ps]; constructor.
  simpl in Hrest. injection Hrest as Hp' _.
  unfold JsArray.SortCompare, byPosition. rewrite Hp, Hp'. simpl. lia.
Qed.

Lemma byPosition_seat_le a b :
  is_Some (Player.position a) → is_Some (Player.position b) →
  placed byPosition seat_le a b.
Proof.
  intros [x Hx] [y Hy]. unfold placed, JsArray.SortCompare, byPosition, seat_le.
  rewrite Hx, Hy. simpl. destruct (0 <? _)%Z eqn:Hcmp; lia.
Qed.

(** C4. For a game of four players with four different ids, [deal] shuffles
    the 52 cards of the deck into a deck with the same cards, each once,
    and stores for the player at index [k] of the seat order the slice
    [13k .. 13k+13) of that deck: 13 cards each, hands stored for the four
    players and nobody else, no card in two hands, the four hands in seat
    order put end to end are the shuffled deck, so the cards dealt are
    exactly the rank-by-suit cards. The seat order is the players sorted by
    seat, ascending when every seat is set; it is the order of arrival when
    the seats were given in that order, as they are in every game of the
    store. *)
Theorem deal_partitions_deck (random_tape : nat → nat) (game : Game.t) (st : Server) :
  length (Game.players game) = 4 →
  NoDup (Player.id <$> Game.players game) →
  let deck := (shuffle random_tape buildDeck st).1 in
  let game' := (deal random_tape game st).1 in
  let seated := JsArray.sort byPosition (Game.players game) in
  (deck ≡ₚ buildDeck ∧ NoDup deck ∧ length deck = 52)
  ∧ (seated ≡ₚ Game.players game
     ∧ (Forall (λ p, is_Some (Player.position p)) (Game.players game) →
        Sorted seat_le seated)
     ∧ (seated_by_arrival game → seated = Game.players game))
  ∧ (∀ k p, seated !! k = Some p →
       Game.hands game' !! Player.id p = Some (JsArray.slice deck (k * 13) (k * 13 + 13))
       ∧ length (hand_of game' p) = 13)
  ∧ (∀ q, is_Some (Game.hands game' !! q) ↔ q ∈ Player.id <$> Game.players game)
  ∧ (∀ k1 k2 p1 p2 c,
       seated !! k1 = Some p1 → seated !! k2 = Some p2 → k1 ≠ k2 →
       c ∈ hand_of game' p1 → c ∉ hand_of game' p2)
  ∧ mjoin (hand_of game' <$> seated) = deck
  ∧ (∀ c, c ∈ mjoin (hand_of game' <$> seated)
          ↔ ∃ rank suit, rank ∈ ranks ∧ suit ∈ suits ∧ c = card_of rank suit).
Proof.
  intros Hlen Hnd. cbv zeta. rewrite deal_eq. cbn [fst].
  pose proof (shuffle_perm random_tape buildDeck st) as Hperm.
  set (deck := (shuffle random_tape buildDeck st).1) in *. clearbody deck.
  assert (Hdeck_nd : NoDup deck) by (rewrite Hperm; apply buildDeck_NoDup).
  assert (Hdeck_len : length deck = 52) by (by rewrite Hperm).
  pose proof (sort_perm byPosition (Game.players game)) as Hseated.
  assert (Hsorted : Forall (λ p, is_Some (Player.position p)) (Game.players game) →
            Sorted seat_le (JsArray.sort byPosition (Game.players game))).
  { intros Hpos. rewrite Forall_forall in Hpos.
    apply sort_Sorted. intros a b Ha Hb. apply byPosition_seat_le; auto. }
  assert (Hsame : seated_by_arrival game →
            JsArray.sort byPosition (Game.players game) = Game.players game).
  { intros Hseats. apply sort_in_order. by apply (seats_in_order _ 0). }
  set (seated := JsArray.sort byPosition (Game.players game)) in *. clearbody seated.
  assert (Hnd' : NoDup (Player.id <$> seated)) by (by rewrite Hseated).
  assert (Hlen' : length seated = 4) by (by rewrite Hseated).
  set (game' := Game.set_status "started" _).
  assert (Hhand : ∀ k p, seated !! k = Some p →
            Game.hands game' !! Player.id p
            = Some (JsArray.slice deck (k * 13) (k * 13 + 13))).
  { intros k p Hk. unfold game'. simpl.
    by rewrite (deal_from_lookup deck 0 seated _ k p). }
  assert (Hhand_of : ∀ k p, seated !! k = Some p →
            hand_of game' p = JsArray.slice deck (k * 13) (k * 13 + 13)).
  { intros k p Hk. unfold hand_of. by rewrite (Hhand k p Hk). }
  assert (Hjoin : mjoin (hand_of game' <$> seated) = deck).
  { destruct seated as [|p0 [|p1 [|p2 [|p3 [|]]]]]; simplify_eq/=.
    rewrite (Hhand_of 0 p0 eq_refl), (Hhand_of 1 p1 eq_refl),
      (Hhand_of 2 p2 eq_refl), (Hhand_of 3 p3 eq_refl).
    simpl. rewrite app_nil_r. by apply four_slices. }
  split; [done|]. split.
  { split; [done|]. split; done. }
  split.
  { intros k p Hk. split; [by apply Hhand|].
    rewrite (Hhand_of k p Hk). apply slice_length.
    apply lookup_lt_Some in Hk. lia. }
  split.
  { intros q. unfold game'. simpl. rewrite deal_from_dom. simpl.
    rewrite lookup_empty, Hseated. split; [intros [H|[? H]]; [done|done] | auto]. }
  split.
  { intros k1 k2 p1 p2 c Hk1 Hk2 Hne.
    rewrite (Hhand_of k1 p1 Hk1), (Hhand_of k2 p2 Hk2), !slice_lookup.
    intros (m1 & Hm1 & Hc1) (m2 & Hm2 & Hc2).
    pose proof (NoDup_lookup _ _ _ _ Hdeck_nd Hc1 Hc2). lia. }
  split; [done|].
  intros c. rewrite Hjoin, Hperm. apply buildDeck_elem.
Qed.

(** ** The routes, one step at a time *)

Section ServerFacts.
Variable random_tape : nat → nat.
Variable uuid_tape : nat → string.

Abbreviation handleApi := (handleApi random_tape uuid_tape).
Abbreviation createGame := (createGame random_tape uuid_tape).
Abbreviation joinGame := (joinGame uuid_tape).
Abbreviation deal := (deal random_tape).
Abbreviation reachable := (reachable random_tape uuid_tape).

Lemma code_from_server n code st :
  games (code_from random_tape n code st).2 = games st
  ∧ uuidCalls (code_from random_tape n code st).2 = uuidCalls st.
Proof.
  revert code st. induction n as [|n IH]; intros code st; simpl; [done|].
  split; [rewrite (proj1 (IH _ _)) | rewrite (proj2 (IH _ _))]; done.
Qed.

Lemma generateCode_spec fuel st code st1 :
  generateCode random_tape fuel st = Some (code, st1) →
  games st1 = games st ∧ uuidCalls st1 = uuidCalls st ∧ games st !! code = None.
Proof.
  revert st. induction fuel as [|fuel IH]; intros st; simpl; [done|].
  case_decide as Hc.
  - intros H. apply IH in H as (H1 & H2 & H3). simpl in *. done.
  - intros [= <- <-]. simpl. repeat split. by apply eq_None_not_Some.
Qed.

(** The first code drawn is taken when it is new: one attempt is enough. *)
Lemma generateCode_first fuel st :
  games st !! (code_from random_tape 5 "" st).1 = None →
  generateCode random_tape (S fuel) st = Some (code_from random_tape 5 "" st).
Proof.
  simpl. intros Hnew. case_decide as Hc; [|done].
  rewrite Hnew in Hc. by destruct Hc.
Qed.

Lemma createGame_spec fuel name st game player st' :
  createGame fuel name st = Some (game, player, st') →
  ∃ code,
    games st !! code = None
    ∧ player = Player.mk (uuid_tape (uuidCalls st)) name (Some 0)
    ∧ game = Game.mk code (Player.id player) "lobby" [player] ∅
    ∧ games st' = <[code:=game]> (games st)
    ∧ uuidCalls st' = S (uuidCalls st).
Proof.
  unfold createGame.
  destruct (generateCode random_tape fuel st) as [[code st1]|] eqn:Hgen; [|done].
  apply generateCode_spec in Hgen as (Hg & Hu & Hnew).
  simpl. intros [= <- <- <-]. exists code. simpl. by rewrite Hg, Hu.
Qed.

Lemma joinGame_eq game name st :
  joinGame game name st =
  let player :=
    Player.mk (uuid_tape (uuidCalls st)) name
      (find (λ pos, bool_decide (Some pos ∉ Player.position <$> Game.players game))
         [0; 1; 2; 3]) in
  (Game.set_players (Game.players game ++ [player]) game, player,
   mkServer (games st) (randomCalls st) (S (uuidCalls st))).
Proof. reflexivity. Qed.

(** The seat [joinGame] picks in a game seated by arrival: the next one. *)
Lemma find_free_seat (ps : list Player.t) :
  Player.position <$> ps = Some <$> seq 0 (length ps) →
  (length ps < 4)%nat →
  find (λ pos, bool_decide (Some pos ∉ Player.position <$> ps)) [0; 1; 2; 3]
  = Some (length ps).
Proof.
  intros -> Hlt.
  destruct (length ps) as [|[|[|[|n]]]]; [..|lia]; by vm_compute.
Qed.

Lemma store_back_games k game st :
  games (store_back (Some k) game st) = <[k:=game]> (games st)
  ∧ uuidCalls (store_back (Some k) game st) = uuidCalls st.
Proof. done. Qed.

Lemma handleApi_cases fuel req resp st st' :
  handleApi fuel req st = Some (resp, st') →
  store_effect random_tape uuid_tape fuel st st'.
Proof.
  unfold handleApi.
  case_decide as Hcreate.
  { case_decide as Hname; [intros [= <- <-]; by apply effect_none|].
    destruct (createGame fuel _ st) as [[[game player] st1]|] eqn:Hc; [|done].
    simpl. intros [= <- <-]. by eapply effect_create. }
  case_decide as Hjoin.
  { destruct (games_get _ st) as [game|] eqn:Hget; [|intros [= <- <-]; by apply effect_none].
    case_decide as Hstatus; [intros [= <- <-]; by apply effect_none|].
    case_decide as Hname; [intros [= <- <-]; by apply effect_none|].
    case_decide as Hfull; [intros [= <- <-]; by apply effect_none|].
    rewrite joinGame_eq. cbv zeta. intros [= <- <-]. simpl in Hget.
    eapply effect_join; [exact Hget| |lia|done..].
    by destruct (decide (Game.status game = "lobby")). }
  case_decide as Hstart.
  { destruct (games_get _ st) as [game|] eqn:Hget; [|intros [= <- <-]; by apply effect_none].
    case_decide as Hhost; [intros [= <- <-]; by apply effect_none|].
    case_decide as Hfour; [intros [= <- <-]; by apply effect_none|].
    pose proof (deal_frame random_tape game st) as (_ & _ & _ & _ & Hg & Hu).
    unfold games_get in Hget.
    destruct (body req !! "gameId") as [code|]; [|discriminate Hget].
    simpl in Hget.
    assert (Hfour' : length (Game.players game) = 4)
      by (by destruct (decide (length (Game.players game) = 4))).
    destruct (deal game st) as [game' st1] eqn:Hdeal. cbn [fst snd] in Hg, Hu.
    intros [= <- <-].
    apply (effect_start _ _ _ _ _ code game); [exact Hget | exact Hfour' | |].
    - rewrite Hdeal. cbn [fst store_back set_games games]. by rewrite Hg.
    - cbn [store_back set_games uuidCalls]. exact Hu. }
  case_decide as Hstate.
  { destruct (games_get _ st) as [game|] eqn:Hget; [|intros [= <- <-]; by apply effect_none].
    destruct (bool_decide _); [|intros [= <- <-]; by apply effect_none].
    rewrite Projector_run_eq. intros [= <- <-]. apply effect_none.
    unfold games_get in Hget. destruct (query req !! "gameId") as [code|]; [|done].
    simpl in *. unfold set_games. rewrite insert_id by done. by destruct st. }
  intros [= <- <-]. by apply effect_none.
Qed.

End ServerFacts.

(** ** Invariants of the store *)

Lemma lobby_ok_created code player_id name :
  lobby_ok (Game.mk code player_id "lobby" [Player.mk player_id name (Some 0)] ∅).
Proof.
  split; [reflexivity|]. split; [simpl; lia|].
  eexists. repeat split; reflexivity.
Qed.

Lemma lobby_ok_same_players g g' :
  Game.players g' = Game.players g → Game.hostId g' = Game.hostId g →
  lobby_ok g → lobby_ok g'.
Proof.
  unfold lobby_ok, seated_by_arrival, creator_is_host. intros -> ->. tauto.
Qed.

Lemma lowest_free_seat_next g :
  seated_by_arrival g → (length (Game.players g) < 4)%nat →
  lowest_free_seat g (Some (length (Game.players g))).
Proof.
  unfold seated_by_arrival. intros Hseats Hlt.
  exists (length (Game.players g)). rewrite Hseats.
  split; [done|]. split; [done|]. split.
  - intros Hin. apply list_elem_of_fmap in Hin as (m & [= <-] & Hm).
    apply elem_of_seq in Hm. lia.
  - intros m Hm. apply list_elem_of_fmap. exists m. split; [done|].
    apply elem_of_seq. lia.
Qed.

Section Invariants.
Variable random_tape : nat → nat.
Variable uuid_tape : nat → string.

Lemma joinGame_seat game name st :
  seated_by_arrival game → (length (Game.players game) < 4)%nat →
  Player.position (joinGame uuid_tape game name st).1.2
  = Some (length (Game.players game)).
Proof. intros Hs Hlt. rewrite joinGame_eq. cbv zeta. cbn [fst snd Player.position]. by apply find_free_seat. Qed.

Lemma lobby_ok_joined game name st :
  lobby_ok game → (length (Game.players game) < 4)%nat →
  lobby_ok (joinGame uuid_tape game name st).1.1.
Proof.
  intros (Hseats & Hlen & creator & H0 & Hpos & Hhost) Hlt.
  rewrite joinGame_eq. cbv zeta. cbn [fst snd].
  rewrite (find_free_seat (Game.players game) Hseats Hlt).
  unfold lobby_ok, seated_by_arrival, creator_is_host. simpl.
  rewrite fmap_app, length_app, Hseats. simpl.
  split; [|split; [lia|]].
  - rewrite Nat.add_1_r, seq_S, fmap_app. done.
  - exists creator. rewrite lookup_app_l by lia. done.
Qed.

Lemma lobby_ok_step fuel st st' :
  store_effect random_tape uuid_tape fuel st st' →
  (∀ code g, games st !! code = Some g → lobby_ok g) →
  (∀ code g, games st' !! code = Some g → lobby_ok g).
Proof.
  intros Heff Hinv code g.
  destruct Heff as [-> | name game player Hc | c game name Hg Hst Hlt Hgames _
                   | c game Hg Hfour Hgames _].
  - apply Hinv.
  - apply createGame_spec in Hc as (c & _ & -> & -> & -> & _).
    destruct (decide (c = code)) as [->|Hne].
    + rewrite lookup_insert_eq. intros [= <-]. apply lobby_ok_created.
    + rewrite lookup_insert_ne by done. apply Hinv.
  - rewrite Hgames. destruct (decide (c = code)) as [->|Hne].
    + rewrite lookup_insert_eq. intros [= <-]. apply lobby_ok_joined; eauto.
    + rewrite lookup_insert_ne by done. apply Hinv.
  - rewrite Hgames. destruct (decide (c = code)) as [->|Hne].
    + rewrite lookup_insert_eq. intros Heq. apply (inj Some) in Heq. subst g.
      pose proof (deal_frame random_tape game st) as (_ & Hh & _ & Hp & _).
      eapply lobby_ok_same_players; [exact Hp | exact Hh | eauto].
    + rewrite lookup_insert_ne by exact Hne. apply Hinv.
Qed.

Lemma reachable_lobby_ok st :
  reachable random_tape uuid_tape st →
  ∀ code g, games st !! code = Some g → lobby_ok g.
Proof.
  induction 1 as [|fuel req resp st st' _ IH Hstep].
  - intros code g. unfold boot. simpl. by rewrite lookup_empty.
  - eapply lobby_ok_step; [by eapply handleApi_cases | exact IH].
Qed.

(** A game keeps its code and its host through every request. *)
Lemma host_step fuel st st' code g :
  store_effect random_tape uuid_tape fuel st st' →
  games st !! code = Some g →
  ∃ g', games st' !! code = Some g'
        ∧ Game.hostId g' = Game.hostId g ∧ Game.id g' = Game.id g.
Proof.
  intros Heff Hcode.
  destruct Heff as [-> | name game player Hc | c game name Hg Hst Hlt Hgames _
                   | c game Hg Hfour Hgames _].
  - eauto.
  - apply createGame_spec in Hc as (c & Hnew & _ & _ & -> & _).
    exists g. rewrite lookup_insert_ne by congruence. done.
  - rewrite Hgames. destruct (decide (c = code)) as [->|Hne].
    + rewrite lookup_insert_eq. eexists. split; [reflexivity|].
      rewrite joinGame_eq. simpl. by simplify_eq.
    + rewrite lookup_insert_ne by done. eauto.
  - rewrite Hgames. destruct (decide (c = code)) as [->|Hne].
    + rewrite lookup_insert_eq. eexists. split; [reflexivity|].
      pose proof (deal_frame random_tape game st) as (Hi & Hh & _).
      rewrite Hi, Hh. split; congruence.
    + rewrite lookup_insert_ne by exact Hne. eauto.
Qed.

Lemma ids_ok_later st st' g :
  (uuidCalls st ≤ uuidCalls st')%nat → ids_ok uuid_tape st g → ids_ok uuid_tape st' g.
Proof.
  intros Hle [Hnd Hissued]. split; [done|].
  intros p Hp. destruct (Hissued p Hp) as (k & Hk & Hid). exists k. split; [lia|done].
Qed.

Lemma ids_ok_step fuel st st' :
  Inj (=) (=) uuid_tape →
  store_effect random_tape uuid_tape fuel st st' →
  (∀ code g, games st !! code = Some g → ids_ok uuid_tape st g) →
  (∀ code g, games st' !! code = Some g → ids_ok uuid_tape st' g).
Proof.
  intros Hinj Heff Hinv code g.
  destruct Heff as [-> | name game player Hc | c game name Hg Hst Hlt Hgames Hu
                   | c game Hg Hfour Hgames Hu].
  - apply Hinv.
  - apply createGame_spec in Hc as (c & _ & -> & -> & -> & Hu).
    destruct (decide (c = code)) as [->|Hne].
    + rewrite lookup_insert_eq. intros [= <-]. split; simpl.
      * apply NoDup_singleton.
      * intros p Hp. apply list_elem_of_singleton in Hp as ->.
        exists (uuidCalls st). split; [lia|done].
    + rewrite lookup_insert_ne by done. intros Hcode.
      eapply ids_ok_later; [|eauto]. lia.
  - rewrite Hgames. destruct (decide (c = code)) as [->|Hne].
    + rewrite lookup_insert_eq. intros Heq. apply (inj Some) in Heq. subst g.
      destruct (Hinv _ _ Hg) as [Hnd Hissued].
      rewrite joinGame_eq. cbv zeta. cbn [fst snd]. split; simpl.
      * rewrite fmap_app. simpl. apply NoDup_app. split; [done|]. split.
        -- intros x Hx Hx'. apply list_elem_of_singleton in Hx' as ->.
           apply list_elem_of_fmap in Hx as (p & Hid & Hp).
           destruct (Hissued p Hp) as (k & Hk & Hid').
           rewrite Hid' in Hid. apply Hinj in Hid. lia.
        -- apply NoDup_singleton.
      * intros p Hp. apply elem_of_app in Hp as [Hp|Hp].
        -- destruct (Hissued p Hp) as (k & Hk & Hid). exists k. split; [lia|done].
        -- apply list_elem_of_singleton in Hp as ->. exists (uuidCalls st).
           split; [lia|done].
    + rewrite lookup_insert_ne by done. intros Hcode.
      eapply ids_ok_later; [|eauto]. lia.
  - rewrite Hgames. destruct (decide (c = code)) as [->|Hne].
    + rewrite lookup_insert_eq. intros Heq. apply (inj Some) in Heq. subst g.
      pose proof (deal_frame random_tape game st) as (_ & _ & _ & Hp & _).
      destruct (Hinv _ _ Hg) as [Hnd Hissued].
      unfold ids_ok. rewrite Hp, Hu. split; [exact Hnd | exact Hissued].
    + rewrite lookup_insert_ne by exact Hne. intros Hcode.
      eapply ids_ok_later; [|eauto]. lia.
Qed.

(** When [randomUUID] never repeats itself, the players of a game have
    different ids, whatever requests were served. *)
Lemma reachable_ids_ok st :
  Inj (=) (=) uuid_tape →
  reachable random_tape uuid_tape st →
  ∀ code g, games st !! code = Some g → ids_ok uuid_tape st g.
Proof.
  intros Hinj. induction 1 as [|fuel req resp st st' _ IH Hstep].
  - intros code g. unfold boot. simpl. by rewrite lookup_empty.
  - eapply ids_ok_step; [done | by eapply handleApi_cases | exact IH].
Qed.

(** So the games the deal is run on have players with different ids,
    seated in order of arrival. *)
Lemma reachable_game_dealable st code g :
  Inj (=) (=) uuid_tape →
  reachable random_tape uuid_tape st →
  games st !! code = Some g →
  NoDup (Player.id <$> Game.players g) ∧ seated_by_arrival g.
Proof.
  intros Hinj Hreach Hg. split.
  - by destruct (reachable_ids_ok st Hinj Hreach code g Hg).
  - by destruct (reachable_lobby_ok st Hreach code g Hg).
Qed.

End Invariants.

(** ** The lobby: seats *)

(** The route tests of [handleApi] on a request whose method and path are
    known: [skip_route] passes a test that fails, [take_route] enters the
    branch of a test that holds. *)
Ltac skip_route :=
  let Hroute := fresh "Hroute" in
  case_decide as Hroute;
  [exfalso; destruct Hroute as [? ?]; discriminate |].
Ltac take_route :=
  let Hroute := fresh "Hroute" in
  case_decide as Hroute;
  [clear Hroute | exfalso; apply Hroute; split; reflexivity].
Ltac enter_route :=
  unfold handleApi; cbn [method pathname body query];
  repeat skip_route; take_route.

Section LobbyFacts.
Variable random_tape : nat → nat.
Variable uuid_tape : nat → string.

Abbreviation handleApi := (handleApi random_tape uuid_tape).

Lemma host_forever st st' code g :
  later random_tape uuid_tape st st' →
  games st !! code = Some g →
  ∃ g', games st' !! code = Some g'
        ∧ Game.hostId g' = Game.hostId g ∧ Game.id g' = Game.id g.
Proof.
  intros Hlater Hg. induction Hlater as [|fuel req resp st1 st2 _ IH Hstep].
  - eauto.
  - destruct IH as (g1 & Hg1 & Hh1 & Hi1).
    destruct (host_step random_tape uuid_tape fuel st1 st2 code g1) as (g2 & Hg2 & Hh2 & Hi2);
      [by eapply handleApi_cases | exact Hg1 |].
    exists g2. split; [exact Hg2|]. split; congruence.
Qed.

Lemma create_answer fuel b q resp st st' :
  handleApi fuel (mkRequest "POST" "/api/game/create" b q) st = Some (resp, st') →
  statusCode resp = 200 →
  ∃ code creator,
    payload resp = JsonSeat code (Player.id creator) (Some 0)
    ∧ games st !! code = None
    ∧ games st' !! code = Some (Game.mk code (Player.id creator) "lobby" [creator] ∅)
    ∧ Player.position creator = Some 0.
Proof.
  enter_route.
  case_decide as Hname; [intros [= <- <-]; simpl; lia|].
  destruct (createGame _ _ fuel _ st) as [[[game player] st1]|] eqn:Hc; [|done].
  simpl. intros [= <- <-] _.
  apply createGame_spec in Hc as (code & Hnew & -> & -> & Hgames & _).
  exists code, (Player.mk (uuid_tape (uuidCalls st))
                  (JsString.trim (default "" (b !! "name"))) (Some 0)).
  simpl. rewrite Hgames, lookup_insert_eq. done.
Qed.

Lemma create_returns b q st :
  JsString.trim (default "" (b !! "name")) ≠ "" →
  games st !! (code_from random_tape 5 "" st).1 = None →
  ∃ resp st',
    handleApi 1 (mkRequest "POST" "/api/game/create" b q) st = Some (resp, st')
    ∧ statusCode resp = 200.
Proof.
  intros Hname Hnew. enter_route.
  case_decide; [done|].
  unfold createGame. rewrite (generateCode_first random_tape 0 st Hnew).
  destruct (code_from random_tape 5 "" st) as [code st1]. simpl. eauto.
Qed.

Lemma join_answer fuel b q resp st st' :
  (∀ code g, games st !! code = Some g → lobby_ok g) →
  handleApi fuel (mkRequest "POST" "/api/game/join" b q) st = Some (resp, st') →
  statusCode resp = 200 →
  ∃ code game joiner,
    games st !! code = Some game
    ∧ payload resp = JsonSeat (Game.id game) (Player.id joiner) (Player.position joiner)
    ∧ games st' !! code = Some (Game.set_players (Game.players game ++ [joiner]) game)
    ∧ Player.position joiner = Some (length (Game.players game))
    ∧ lowest_free_seat game (Player.position joiner).
Proof.
  intros Hinv. enter_route. unfold games_get. cbn [mbind option_bind].
  destruct (games st !! _) as [game|] eqn:Hg; [|intros [= <- <-]; simpl; lia].
  case_decide as Hstatus; [intros [= <- <-]; simpl; lia|].
  case_decide as Hname; [intros [= <- <-]; simpl; lia|].
  case_decide as Hfull; [intros [= <- <-]; simpl; lia|].
  destruct (Hinv _ _ Hg) as (Hseats & Hlen & Hhost).
  assert (Hlt : (length (Game.players game) < 4)%nat) by lia.
  rewrite joinGame_eq. cbv zeta.
  rewrite (find_free_seat (Game.players game) Hseats Hlt).
  intros [= <- <-] _.
  eexists _, game, (Player.mk (uuid_tape (uuidCalls st)) _
                      (Some (length (Game.players game)))).
  split; [exact Hg|]. simpl. rewrite lookup_insert_eq.
  split; [reflexivity|]. split; [reflexivity|]. split; [reflexivity|].
  by apply lowest_free_seat_next.
Qed.

(** C5. In every state the server reaches, every game has its players
    seated 0, 1, 2, ... in the order they arrived, between one and four of
    them, the first one being the creator, at seat 0 and host. A create
    request that succeeds stores a new game whose only player is the creator
    at seat 0 (and it succeeds at the first attempt when the code drawn is
    new); a join request that succeeds appends the joiner at the lowest seat
    of 0..3 nobody holds, which is the number of players already there. *)
Theorem seats_follow_arrival (st : Server) :
  reachable random_tape uuid_tape st →
  (∀ code g, games st !! code = Some g →
     Player.position <$> Game.players g = Some <$> seq 0 (length (Game.players g))
     ∧ (1 ≤ length (Game.players g) ≤ 4)%nat
     ∧ creator_is_host g)
  ∧ (∀ fuel b q resp st',
       handleApi fuel (mkRequest "POST" "/api/game/create" b q) st = Some (resp, st') →
       statusCode resp = 200 →
       ∃ code creator,
         payload resp = JsonSeat code (Player.id creator) (Some 0)
         ∧ games st !! code = None
         ∧ games st' !! code = Some (Game.mk code (Player.id creator) "lobby" [creator] ∅)
         ∧ Player.position creator = Some 0)
  ∧ (∀ b q,
       JsString.trim (default "" (b !! "name")) ≠ "" →
       games st !! (code_from random_tape 5 "" st).1 = None →
       ∃ resp st',
         handleApi 1 (mkRequest "POST" "/api/game/create" b q) st = Some (resp, st')
         ∧ statusCode resp = 200)
  ∧ (∀ fuel b q resp st',
       handleApi fuel (mkRequest "POST" "/api/game/join" b q) st = Some (resp, st') →
       statusCode resp = 200 →
       ∃ code game joiner,
         games st !! code = Some game
         ∧ payload resp = JsonSeat (Game.id game) (Player.id joiner) (Player.position joiner)
         ∧ games st' !! code = Some (Game.set_players (Game.players game ++ [joiner]) game)
         ∧ Player.position joiner = Some (length (Game.players game))
         ∧ lowest_free_seat game (Player.position joiner)).
Proof.
  intros Hreach.
  pose proof (reachable_lobby_ok random_tape uuid_tape st Hreach) as Hinv.
  split; [exact Hinv|]. split; [|split].
  - intros fuel b q resp st'. apply create_answer.
  - intros b q. apply create_returns.
  - intros fuel b q resp st'. by apply join_answer.
Qed.

End LobbyFacts.

(** ** Joining and starting *)

Section StartFacts.
Variable random_tape : nat → nat.
Variable uuid_tape : nat → string.

Abbreviation handleApi := (handleApi random_tape uuid_tape).
Abbreviation deal := (deal random_tape).

(** A join is looked up under the trimmed, upper-cased code. *)
Lemma join_lookup_normalized fuel b q st :
  games st !! JsString.toUpperCase (JsString.trim (default "" (b !! "gameId"))) = None →
  handleApi fuel (mkRequest "POST" "/api/game/join" b q) st
  = Some (sendJson 404 (JsonError "Game not found"), st).
Proof.
  intros Hnone. enter_route. unfold games_get. cbn [mbind option_bind].
  by rewrite Hnone.
Qed.

(** Once a game has left the lobby, every join is refused and changes
    nothing. *)
Lemma join_after_start_refused fuel b q st game :
  games st !! JsString.toUpperCase (JsString.trim (default "" (b !! "gameId")))
    = Some game →
  Game.status game ≠ "lobby" →
  handleApi fuel (mkRequest "POST" "/api/game/join" b q) st
  = Some (sendJson 400 (JsonError "Game already started"), st).
Proof.
  intros Hg Hstatus. enter_route. unfold games_get. cbn [mbind option_bind].
  rewrite Hg. by case_decide.
Qed.

(** Start and state look the code up as it was sent. *)
Lemma start_lookup_verbatim fuel b q st code :
  b !! "gameId" = Some code → games st !! code = None →
  handleApi fuel (mkRequest "POST" "/api/game/start" b q) st
  = Some (sendJson 404 (JsonError "Game not found"), st).
Proof.
  intros Hb Hnone. enter_route. rewrite Hb. unfold games_get. cbn [mbind option_bind].
  rewrite Hnone. reflexivity.
Qed.

Lemma state_lookup_verbatim fuel b q st code :
  q !! "gameId" = Some code → games st !! code = None →
  handleApi fuel (mkRequest "GET" "/api/game/state" b q) st
  = Some (sendJson 404 (JsonError "Game not found"), st).
Proof.
  intros Hq Hnone. enter_route. rewrite Hq. unfold games_get. cbn [mbind option_bind].
  rewrite Hnone. reflexivity.
Qed.



Lemma start_deals fuel b q st gameId game :
  b !! "gameId" = Some gameId → games st !! gameId = Some game →
  b !! "playerId" = Some (Game.hostId game) →
  length (Game.players game) = 4 →
  handleApi fuel (mkRequest "POST" "/api/game/start" b q) st
  = Some (sendJson 200 JsonOk,
          store_back (Some gameId) (deal game st).1 (deal game st).2).
Proof.
  intros Hb Hg Hhost Hlen. enter_route. rewrite Hb. unfold games_get. cbn [mbind option_bind].
  rewrite Hg, Hhost. case_decide as Hh; [by destruct Hh|].
  case_decide as Hl; [by destruct Hl|].
  destruct (deal game st) as [game' st1]. reflexivity.
Qed.


(** C2 (amended). For a game of four found under the code of the request,
    the start of its host answers 200 and leaves the game in the store with
    the status "started". *)
Theorem start_sets_status_started (fuel : nat) (b q : gmap string string) (st : Server)
    (gameId : string) (game : Game.t) :
  b !! "gameId" = Some gameId →
  games st !! gameId = Some game →
  b !! "playerId" = Some (Game.hostId game) →
  length (Game.players game) = 4 →
  ∃ st' game',
    handleApi fuel (mkRequest "POST" "/api/game/start" b q) st
    = Some (sendJson 200 JsonOk, st')
    ∧ games st' !! gameId = Some game'
    ∧ Game.status game' = "started".
Proof.
  intros Hb Hg Hhost Hlen.
  exists (store_back (Some gameId) (deal game st).1 (deal game st).2), (deal game st).1.
  split; [exact (start_deals fuel b q st gameId game Hb Hg Hhost Hlen)|].
  pose proof (deal_frame random_tape game st) as (_ & _ & Hstatus & _).
  split; [|exact Hstatus].
  cbn [store_back set_games games]. apply lookup_insert_eq.
Qed.

End StartFacts.

(** ** The sample run *)

Lemma serve_reachable reqs st :
  reachable sample_random sample_uuid st →
  reachable sample_random sample_uuid (serve reqs st).2.
Proof.
  revert st. induction reqs as [|req reqs IH]; intros st Hst; [exact Hst|].
  cbn [serve].
  destruct (handleApi sample_random sample_uuid 1 req st) as [[resp st1]|] eqn:Hstep;
    [|exact Hst].
  specialize (IH st1 (reachable_step _ _ _ _ _ _ _ Hst Hstep)).
  destruct (serve reqs st1) as [out st2]. exact IH.
Qed.

Lemma lobby_of_four_reachable : reachable sample_random sample_uuid lobby_of_four.
Proof. apply serve_reachable, reachable_boot. Qed.

Lemma lobby_of_four_game : games lobby_of_four !! "DLT29" = Some sample_lobby.
Proof. vm_compute. reflexivity. Qed.

(** The deal of the sample lobby on the sample tape. *)
Lemma deal_partitions_deck_sample :
  (length (Game.players sample_lobby) = 4
   ∧ NoDup (Player.id <$> Game.players sample_lobby))
  ∧ mjoin (hand_of (deal sample_random sample_lobby boot).1
             <$> JsArray.sort byPosition (Game.players sample_lobby))
    = (shuffle sample_random buildDeck boot).1.
Proof.
  assert (Hlen : length (Game.players sample_lobby) = 4) by reflexivity.
  assert (Hnd : NoDup (Player.id <$> Game.players sample_lobby)).
  { apply (bool_decide_unpack _). vm_compute. reflexivity. }
  split; [split; [exact Hlen | exact Hnd]|].
  exact (proj1 (proj2 (proj2 (proj2 (proj2 (proj2
           (deal_partitions_deck sample_random sample_lobby boot Hlen Hnd))))))).
Defined.

(** The lobby of four of the sample run. *)
Lemma seats_follow_arrival_sample :
  reachable sample_random sample_uuid lobby_of_four
  ∧ ∀ code g, games lobby_of_four !! code = Some g →
      Player.position <$> Game.players g = Some <$> seq 0 (length (Game.players g))
      ∧ (1 ≤ length (Game.players g) ≤ 4)%nat
      ∧ creator_is_host g.
Proof.
  split; [exact lobby_of_four_reachable|].
  exact (proj1 (seats_follow_arrival sample_random sample_uuid lobby_of_four
                  lobby_of_four_reachable)).
Defined.


(** The host starts the lobby of four: the status stored is started. *)
Lemma start_sets_status_started_sample :
  (body start_by_host !! "gameId" = Some "DLT29"
   ∧ games lobby_of_four !! "DLT29" = Some sample_lobby
   ∧ body start_by_host !! "playerId" = Some (Game.hostId sample_lobby)
   ∧ length (Game.players sample_lobby) = 4)
  ∧ ∃ st' game',
      handleApi sample_random sample_uuid 1 start_by_host lobby_of_four
      = Some (sendJson 200 JsonOk, st')
      ∧ games st' !! "DLT29" = Some game'
      ∧ Game.status game' = "started".
Proof.
  assert (Hb : body start_by_host !! "gameId" = Some "DLT29") by (vm_compute; reflexivity).
  assert (Hp : body start_by_host !! "playerId" = Some (Game.hostId sample_lobby))
    by (vm_compute; reflexivity).
  assert (Hlen : length (Game.players sample_lobby) = 4) by reflexivity.
  split; [exact (conj Hb (conj lobby_of_four_game (conj Hp Hlen)))|].
  exact (start_sets_status_started sample_random sample_uuid 1 (body start_by_host) ∅
           lobby_of_four "DLT29" sample_lobby Hb lobby_of_four_game Hp Hlen).
Defined.

(** The start of the host of four succeeds, and the status it leaves is not
    "dealt". *)
Lemma start_status_is_not_dealt :
  ∃ st',
    handleApi sample_random sample_uuid 1 start_by_host lobby_of_four
    = Some (sendJson 200 JsonOk, st')
    ∧ Game.status <$> games st' !! "DLT29" = Some "started"
    ∧ Game.status <$> games st' !! "DLT29" ≠ Some "dealt".
Proof.
  exists dealt_once. split; [vm_compute; reflexivity|].
  split; [vm_compute; reflexivity|]. vm_compute. intros H. discriminate H.
Qed.

(** C1. After the host has started the game of four (status "started", no
    longer "lobby"), a join is refused with "Game already started" and
    changes nothing, but a second start of the host is answered 200 and
    deals again: the hand stored for p0 is another one. *)
Theorem second_start_deals_again :
  Game.status <$> games dealt_once !! "DLT29" = Some "started"
  ∧ handleApi sample_random sample_uuid 1
      (post "/api/game/join" [("gameId", "DLT29"); ("name", "Eve")]) dealt_once
    = Some (sendJson 400 (JsonError "Game already started"), dealt_once)
  ∧ ∃ st2,
      handleApi sample_random sample_uuid 1 start_by_host dealt_once
      = Some (sendJson 200 JsonOk, st2)
      ∧ (games st2 !! "DLT29" ≫= λ g, Game.hands g !! "p0")
        ≠ (games dealt_once !! "DLT29" ≫= λ g, Game.hands g !! "p0").
Proof.
  split; [vm_compute; reflexivity|]. split; [vm_compute; reflexivity|].
  exists (snd (serve [start_by_host] dealt_once)).
  split; [vm_compute; reflexivity|]. vm_compute. intros H. discriminate H.
Qed.

(** C6. With the game stored under DLT29, the code dlt29 is found by join
    (refused only because the game is full), and not by start nor by state:
    both answer 404 "Game not found". *)
Theorem lowercase_code_found_by_join_only :
  handleApi sample_random sample_uuid 1
    (post "/api/game/join" [("gameId", "dlt29"); ("name", "Eve")]) lobby_of_four
  = Some (sendJson 400 (JsonError "Game is full"), lobby_of_four)
  ∧ handleApi sample_random sample_uuid 1
      (post "/api/game/start" [("gameId", "dlt29"); ("playerId", "p0")]) lobby_of_four
    = Some (sendJson 404 (JsonError "Game not found"), lobby_of_four)
  ∧ handleApi sample_random sample_uuid 1
      (get "/api/game/state" [("gameId", "dlt29"); ("playerId", "p0")]) lobby_of_four
    = Some (sendJson 404 (JsonError "Game not found"), lobby_of_four)
  ∧ statusCode <$> (fst <$> handleApi sample_random sample_uuid 1
      (get "/api/game/state" [("gameId", "DLT29"); ("playerId", "p0")]) lobby_of_four)
    = Some 200.
Proof. repeat split; vm_compute; reflexivity. Qed.

(** ** Codes: their shape and their normal form *)

Lemma chars_of_append a b :
  String.list_ascii_of_string (a +:+ b)
  = (String.list_ascii_of_string a ++ String.list_ascii_of_string b)%list.
Proof.
  induction a as [|c a IH]; [done|].
  change (c :: String.list_ascii_of_string (a +:+ b)
          = c :: (String.list_ascii_of_string a ++ String.list_ascii_of_string b)%list).
  by rewrite IH.
Qed.

Lemma chars_of_length s : length (String.list_ascii_of_string s) = String.length s.
Proof. induction s as [|c s IH]; simpl; [done|]. by rewrite IH. Qed.

Lemma get_in_chars s k :
  (k < String.length s)%nat →
  ∃ c, String.get k s = Some c ∧ c ∈ String.list_ascii_of_string s.
Proof.
  revert k. induction s as [|a s IH]; intros k Hk; simpl in *; [lia|].
  destruct k as [|k].
  - exists a. split; [done | by left].
  - destruct (IH k) as (c & Hc & Hin); [lia|]. exists c. split; [done | by right].
Qed.

Lemma charAt_chars k :
  ∃ c, JsString.charAt chars (k `mod` String.length chars) = String c ""
       ∧ c ∈ code_alphabet.
Proof.
  destruct (get_in_chars chars (k `mod` String.length chars)) as (c & Hc & Hin).
  { apply Nat.mod_upper_bound. by vm_compute. }
  exists c. unfold JsString.charAt. by rewrite Hc.
Qed.

Lemma code_from_shape random_tape n code st :
  ∃ l, String.list_ascii_of_string (code_from random_tape n code st).1
       = (String.list_ascii_of_string code ++ l)%list
       ∧ length l = n
       ∧ Forall (λ c, c ∈ code_alphabet) l
       ∧ randomCalls (code_from random_tape n code st).2 = (randomCalls st + n)%nat.
Proof.
  revert code st. induction n as [|n IH]; intros code st.
  - exists []. simpl. rewrite app_nil_r. repeat split; [constructor | lia].
  - cbn [code_from random_below].
    destruct (charAt_chars (random_tape (randomCalls st))) as (c & Hc & Hin).
    rewrite Hc.
    destruct (IH (code +:+ String c "")
                (mkServer (games st) (S (randomCalls st)) (uuidCalls st)))
      as (l & Hl & Hlen & Hall & Hcalls).
    exists (c :: l). rewrite Hl, chars_of_append. simpl.
    rewrite <- app_assoc. simpl. split; [done|]. split; [lia|].
    split; [by constructor|]. simpl in Hcalls. lia.
Qed.

(** A string without white space is its own trim. *)
Lemma trim_no_white_space s :
  Forall (λ c, JsString.is_white_space c = false) (String.list_ascii_of_string s) →
  JsString.trim s = s.
Proof.
  intros Hs. unfold JsString.trim.
  assert (Hstart : JsString.trimStart s = s).
  { destruct s as [|c s]; [done|]. simpl in *. apply Forall_cons in Hs as [-> _]. done. }
  rewrite Hstart. clear Hstart.
  induction s as [|c s IH]; [done|]. simpl in *.
  apply Forall_cons in Hs as [Hc Hs]. rewrite (IH Hs), Hc. by destruct s.
Qed.

Lemma toUpperCase_no_lower s :
  Forall (λ c, JsString.upper_ascii c = c) (String.list_ascii_of_string s) →
  JsString.toUpperCase s = s.
Proof.
  induction s as [|c s IH]; [done|]. simpl. intros Hs.
  apply Forall_cons in Hs as [-> Hs]. by rewrite (IH Hs).
Qed.

Lemma code_alphabet_plain :
  Forall (λ c, JsString.is_white_space c = false ∧ JsString.upper_ascii c = c)
    code_alphabet.
Proof. apply (bool_decide_unpack _). vm_compute. reflexivity. Qed.

Lemma code_shaped_normal code : code_shaped code → normalize_code code = code.
Proof.
  intros [_ Hall]. unfold normalize_code.
  pose proof code_alphabet_plain as Hplain. rewrite Forall_forall in Hplain.
  rewrite trim_no_white_space.
  - apply toUpperCase_no_lower. eapply Forall_impl; [exact Hall|].
    intros c Hc. by destruct (Hplain c Hc).
  - eapply Forall_impl; [exact Hall|]. intros c Hc. by destruct (Hplain c Hc).
Qed.

Lemma code_from_5_shaped random_tape st :
  code_shaped (code_from random_tape 5 "" st).1.
Proof.
  destruct (code_from_shape random_tape 5 "" st) as (l & Hl & Hlen & Hall & _).
  split.
  - rewrite <- chars_of_length, Hl. exact Hlen.
  - rewrite Hl. exact Hall.
Qed.

Lemma generateCode_shaped random_tape fuel st code st1 :
  generateCode random_tape fuel st = Some (code, st1) → code_shaped code.
Proof.
  revert st. induction fuel as [|fuel IH]; intros st; [done|].
  cbn [generateCode].
  pose proof (code_from_5_shaped random_tape st) as Hshape.
  destruct (code_from random_tape 5 "" st) as [c st0]. cbn [fst] in Hshape.
  case_decide as Htaken; [apply IH|].
  intros Heq. apply (inj Some) in Heq. apply pair_equal_spec in Heq as [<- _].
  exact Hshape.
Qed.

(** X1. A code that [generateCode] returns has five characters of the
    alphabet, is not the key of a game already in the store, and is left
    as it is by the trim and upper-casing of the join route; making it takes
    a positive multiple of five random draws and touches neither the store
    nor the UUIDs. *)
Theorem generateCode_code (random_tape : nat → nat) (fuel : nat) (st st1 : Server)
    (code : string) :
  generateCode random_tape fuel st = Some (code, st1) →
  code_shaped code
  ∧ games st !! code = None
  ∧ normalize_code code = code
  ∧ games st1 = games st
  ∧ uuidCalls st1 = uuidCalls st
  ∧ ∃ attempts, (1 ≤ attempts ≤ fuel)%nat
                ∧ randomCalls st1 = (randomCalls st + 5 * attempts)%nat.
Proof.
  revert st. induction fuel as [|fuel IH]; intros st; [done|].
  cbn [generateCode].
  pose proof (code_from_5_shaped random_tape st) as Hshape.
  destruct (code_from_shape random_tape 5 "" st) as (_ & _ & _ & _ & Hcalls).
  pose proof (code_from_server random_tape 5 "" st) as [Hg Hu].
  destruct (code_from random_tape 5 "" st) as [c st0]. cbn [fst snd] in *.
  case_decide as Htaken.
  - intros Hrec. destruct (IH st0 Hrec) as (H1 & H2 & H3 & H4 & H5 & n & Hn & H6).
    split; [exact H1|]. split; [by rewrite <- Hg|]. split; [exact H3|].
    split; [by rewrite H4|]. split; [by rewrite H5|].
    exists (S n). split; [lia|]. rewrite H6, Hcalls. lia.
  - intros [= <- <-]. split; [exact Hshape|].
    split; [rewrite <- Hg; by apply eq_None_not_Some|].
    split; [by apply code_shaped_normal|]. split; [exact Hg|]. split; [exact Hu|].
    exists 1. split; [lia|]. rewrite Hcalls. lia.
Qed.

(** The first code drawn on the sample tape. *)
Lemma generateCode_code_sample :
  generateCode sample_random 1 boot
  = Some ("DLT29", mkServer ∅ 5 0)
  ∧ code_shaped "DLT29" ∧ normalize_code "DLT29" = "DLT29".
Proof.
  assert (H : generateCode sample_random 1 boot = Some ("DLT29", mkServer ∅ 5 0))
    by (vm_compute; reflexivity).
  destruct (generateCode_code sample_random 1 boot (mkServer ∅ 5 0) "DLT29" H)
    as (H1 & _ & H3 & _).
  split; [exact H|]. split; [exact H1 | exact H3].
Defined.

(** ** Trimming and upper-casing *)

Lemma trimStart_head s :
  JsString.trimStart s = ""
  ∨ ∃ c r, JsString.trimStart s = String c r ∧ JsString.is_white_space c = false.
Proof.
  induction s as [|c s IH]; simpl; [by left|].
  destruct (JsString.is_white_space c) eqn:Hc; [exact IH|]. right. eauto.
Qed.

Lemma trimEnd_head c s :
  JsString.is_white_space c = false →
  ∃ r, JsString.trimEnd (String c s) = String c r.
Proof.
  intros Hc. simpl. destruct (JsString.trimEnd s); rewrite ?Hc; eauto.
Qed.

Lemma trimEnd_idem s : JsString.trimEnd (JsString.trimEnd s) = JsString.trimEnd s.
Proof.
  induction s as [|c s IH]; simpl; [done|].
  destruct (JsString.trimEnd s) as [|d r] eqn:Hr.
  - destruct (JsString.is_white_space c) eqn:Hc; simpl; [done|]. by rewrite Hc.
  - change (JsString.trimEnd (String c (String d r)))
      with (match JsString.trimEnd (String d r) with
            | "" => if JsString.is_white_space c then "" else String c ""
            | rest => String c rest
            end).
    by rewrite IH.
Qed.

Lemma trim_head s :
  JsString.trim s = ""
  ∨ ∃ c r, JsString.trim s = String c r ∧ JsString.is_white_space c = false.
Proof.
  unfold JsString.trim.
  destruct (trimStart_head s) as [->|(c & r & -> & Hc)]; [by left|].
  destruct (trimEnd_head c r Hc) as [r' ->]. right. eauto.
Qed.

Lemma trim_idem s : JsString.trim (JsString.trim s) = JsString.trim s.
Proof.
  destruct (trim_head s) as [->|(c & r & Hs & Hc)]; [done|].
  unfold JsString.trim at 1. rewrite Hs. simpl JsString.trimStart. rewrite Hc.
  rewrite <- Hs. unfold JsString.trim. apply trimEnd_idem.
Qed.








Lemma lookup_field1 (k1 k2 v1 v2 : string) :
  (list_to_map [(k1, v1); (k2, v2)] : gmap string string) !! k1 = Some v1.
Proof. simpl. apply lookup_insert_eq. Qed.

Lemma lookup_field2 (k1 k2 v1 v2 : string) :
  k1 ≠ k2 →
  (list_to_map [(k1, v1); (k2, v2)] : gmap string string) !! k2 = Some v2.
Proof. intros Hne. simpl. rewrite lookup_insert_ne by done. apply lookup_insert_eq. Qed.




(** ** Card texts, once more *)

Lemma substring_length n m s :
  String.length (String.substring n m s) = (m `min` (String.length s - n))%nat.
Proof.
  revert n m. induction s as [|c s IH]; intros [|n] [|m];
    cbn [String.substring String.length]; rewrite ?IH; lia.
Qed.

(** X3. [splitCard] cuts any text into all but its last character and its
    last character: put back together they are the text; the suit has one
    character (none for the empty text, which gives two empty parts), and a
    text of one character is a suit without a rank. *)
Theorem splitCard_cuts_last (card : string) :
  card_of (splitCard card).1 (splitCard card).2 = card
  ∧ String.length (splitCard card).2 = (1 `min` String.length card)%nat
  ∧ String.length (splitCard card).1 = (String.length card - 1)%nat
  ∧ splitCard "" = ("", "")
  ∧ (String.length card = 1 → splitCard card = ("", card)).
Proof.
  split; [apply splitCard_join|].
  assert (Hsuit : String.length (splitCard card).2 = (1 `min` String.length card)%nat).
  { unfold splitCard, JsString.slice, JsString.relative_index. cbn [snd].
    change (-1 <? 0)%Z with true. cbv iota. rewrite substring_length. lia. }
  assert (Hrank : String.length (splitCard card).1 = (String.length card - 1)%nat).
  { unfold splitCard, JsString.slice, JsString.relative_index. cbn [fst].
    change (-1 <? 0)%Z with true. change (0 <? 0)%Z with false. cbv iota.
    rewrite substring_length. lia. }
  split; [exact Hsuit|]. split; [exact Hrank|]. split; [reflexivity|].
  intros Hone. rewrite Hone in Hrank.
  pose proof (splitCard_join card) as Hjoin.
  destruct (splitCard card) as [rank suit]. cbn [fst snd] in *.
  destruct rank; [|discriminate Hrank]. by rewrite <- Hjoin.
Qed.

(** The position of a card in the deck as [buildDeck] builds it. *)
Lemma deck_index_of a :
  a ∈ buildDeck → ∃ i, index_in buildDeck a = Some i ∧ buildDeck !! i = Some a.
Proof.
  intros Ha. unfold index_in.
  destruct (list_find (λ y, y = a) buildDeck) as [[i y]|] eqn:Hfind.
  - apply list_find_Some in Hfind as (Hi & -> & _). exists i. by split.
  - apply list_find_None in Hfind. rewrite Forall_forall in Hfind.
    by destruct (Hfind a Ha).
Qed.

(** X4. On the cards of the deck [cardComparator] is a consistent
    comparator: it returns a number, the opposite number when the arguments
    are swapped, zero for equal cards only, and its sign is the sign of the
    difference of the positions of the two cards in the deck [buildDeck]
    builds: negative exactly when the first card comes earlier there. *)
Theorem cardComparator_deck_order (a b : string) :
  a ∈ buildDeck → b ∈ buildDeck →
  ∃ z i j,
    cardComparator a b = Some z
    ∧ cardComparator b a = Some (- z)%Z
    ∧ buildDeck !! i = Some a ∧ buildDeck !! j = Some b
    ∧ Z.sgn z = Z.sgn (Z.of_nat i - Z.of_nat j)
    ∧ (z = 0%Z ↔ a = b).
Proof.
  intros Ha Hb.
  assert (Hall : Forall (λ a, Forall (λ b,
            match cardComparator a b, cardComparator b a,
                  index_in buildDeck a, index_in buildDeck b with
            | Some z, Some z', Some i, Some j =>
                bool_decide (z' = (- z)%Z
                             ∧ Z.sgn z = Z.sgn (Z.of_nat i - Z.of_nat j))
            | _, _, _, _ => false
            end = true) buildDeck) buildDeck).
  { apply (bool_decide_unpack _). vm_compute. reflexivity. }
  rewrite Forall_forall in Hall. specialize (Hall a Ha).
  rewrite Forall_forall in Hall. specialize (Hall b Hb).
  destruct (deck_index_of a Ha) as (i & Hi & Hai).
  destruct (deck_index_of b Hb) as (j & Hj & Hbj).
  rewrite Hi, Hj in Hall.
  destruct (cardComparator a b) as [z|]; [|done].
  destruct (cardComparator b a) as [z'|]; [|done].
  apply bool_decide_eq_true in Hall as [-> Hsgn].
  exists z, i, j. repeat split; try done.
  - intros ->. assert (i = j) as -> by lia. congruence.
  - intros ->. pose proof (NoDup_lookup _ _ _ _ buildDeck_NoDup Hai Hbj). lia.
Qed.

(** The ace and the king of spades. *)
Lemma cardComparator_deck_order_sample :
  ("AS" ∈ buildDeck ∧ "KS" ∈ buildDeck)
  ∧ ∃ z, cardComparator "AS" "KS" = Some z ∧ cardComparator "KS" "AS" = Some (- z)%Z.
Proof.
  assert (Ha : "AS" ∈ buildDeck) by (apply (bool_decide_unpack _); vm_compute; reflexivity).
  assert (Hb : "KS" ∈ buildDeck) by (apply (bool_decide_unpack _); vm_compute; reflexivity).
  split; [by split|].
  destruct (cardComparator_deck_order "AS" "KS" Ha Hb) as (z & _ & _ & H1 & H2 & _).
  exists z. by split.
Defined.

(** X5. [parseCard] reads the rank as the server's [splitCard] does, colours
    a card red exactly when its last character is H or D, and shows a last
    character that is not one of the four suits as it is. For each card of
    the deck the face has one of the thirteen ranks and the glyph of its
    suit. *)
Theorem parseCard_faces :
  (∀ card,
     Client.rank (Client.parseCard card) = (splitCard card).1
     ∧ (Client.color (Client.parseCard card) = "#c03434"
        ↔ (splitCard card).2 = "H" ∨ (splitCard card).2 = "D")
     ∧ ((splitCard card).2 ∉ suits →
        Client.suitSymbol (Client.parseCard card) = (splitCard card).2
        ∧ Client.color (Client.parseCard card) = "#0d1b2c"))
  ∧ Forall (λ card,
       Client.rank (Client.parseCard card) ∈ ranks
       ∧ (Client.suitSymbol (Client.parseCard card), (splitCard card).2)
         ∈ [("♠", "S"); ("♥", "H"); ("♦", "D"); ("♣", "C")]) buildDeck.
Proof.
  split.
  - intros card. unfold Client.parseCard, splitCard, Client.suitInfo. cbn [fst snd].
    generalize (JsString.slice card 0 (Some (-1)%Z)) as rank.
    generalize (JsString.slice card (-1) None) as suit. intros suit rank.
    assert (Hsuits : ∀ x, x ∈ suits ↔ x = "S" ∨ x = "H" ∨ x = "D" ∨ x = "C").
    { intros x. unfold suits. rewrite !elem_of_cons, elem_of_nil. tauto. }
    destruct (decide (suit = "S")) as [->|HS].
    { cbn. split; [done|]. split; [split; [done | intros [|]; done]|].
      intros Hn. exfalso. apply Hn, Hsuits. tauto. }
    destruct (decide (suit = "C")) as [->|HC].
    { cbn. split; [done|]. split; [split; [done | intros [|]; done]|].
      intros Hn. exfalso. apply Hn, Hsuits. tauto. }
    destruct (decide (suit = "H")) as [->|HH].
    { cbn. split; [done|]. split; [split; [tauto | done]|].
      intros Hn. exfalso. apply Hn, Hsuits. tauto. }
    destruct (decide (suit = "D")) as [->|HD].
    { cbn. split; [done|]. split; [split; [tauto | done]|].
      intros Hn. exfalso. apply Hn, Hsuits. tauto. }
    cbn. split; [done|]. split; [split; [done | intros [|]; done]|]. done.
  - apply (bool_decide_unpack _). vm_compute. reflexivity.
Qed.

(** ** The shuffle, the deal and the store *)

Transparent shuffle.

Lemma shuffle_from_draws tape i array st draws :
  length draws = i →
  (∀ k, (k < i)%nat → tape (randomCalls st + k)%nat = nth k draws 0%nat) →
  (shuffle_from tape i array st).1 = shuffle_draws i draws array.
Proof.
  revert array st draws. induction i as [|i IH]; intros array st draws Hlen Htape.
  - by destruct draws.
  - destruct draws as [|j draws]; [done|]. cbn [shuffle_from random_below shuffle_draws].
    pose proof (Htape 0%nat ltac:(lia)) as H0. rewrite Nat.add_0_r in H0.
    cbn [nth] in H0. rewrite H0.
    apply IH; [by injection Hlen|].
    intros k Hk. cbn [randomCalls].
    pose proof (Htape (S k) ltac:(lia)) as Hk'. cbn [nth] in Hk'. rewrite <- Hk'.
    f_equal. lia.
Qed.

Lemma tape_of_plays start draws k :
  tape_of start draws (start + k) = nth k draws 0%nat.
Proof. unfold tape_of. f_equal. lia. Qed.

Lemma snoc_last {A} (l : list A) n x :
  l !! n = Some x → length l = S n → l = (take n l ++ [x])%list.
Proof.
  intros Hx Hlen. rewrite <- (take_S_r l n x Hx). symmetry. apply take_ge. lia.
Qed.

Lemma swap_lookups {A} (a : list A) i j x y :
  a !! i = Some x → a !! j = Some y →
  JsArray.swap a i j = <[j:=x]> (<[i:=y]> a) ∧ JsArray.swap a i j !! i = Some y.
Proof.
  intros Hi Hj. unfold JsArray.swap. rewrite Hi, Hj. split; [done|].
  destruct (decide (j = i)) as [->|Hne].
  - rewrite list_lookup_insert_eq; [congruence|].
    rewrite length_insert. by eapply lookup_lt_Some.
  - rewrite list_lookup_insert_ne by done. apply list_lookup_insert_eq.
    by eapply lookup_lt_Some.
Qed.

Lemma swap_app {A} (pre suf : list A) i j :
  (i < length pre)%nat → (j < length pre)%nat →
  JsArray.swap (pre ++ suf) i j = (JsArray.swap pre i j ++ suf)%list.
Proof.
  intros Hi Hj. unfold JsArray.swap.
  rewrite !lookup_app_l by done.
  destruct (pre !! i) as [x|] eqn:Hx; [|by apply lookup_ge_None in Hx; lia].
  destruct (pre !! j) as [y|] eqn:Hy; [|by apply lookup_ge_None in Hy; lia].
  rewrite insert_app_l by done. rewrite insert_app_l; [done|]. by rewrite length_insert.
Qed.

Lemma draws_exist i (pre suf target : list string) :
  length pre = S i → pre ≡ₚ target →
  ∃ draws, length draws = i
           ∧ shuffle_draws i draws (pre ++ suf) = (target ++ suf)%list.
Proof.
  revert pre suf target. induction i as [|i IH]; intros pre suf target Hlen Hperm.
  - exists []. split; [done|]. simpl.
    destruct pre as [|x [|]]; try done. apply Permutation_singleton_l in Hperm. by subst.
  - assert (Hlen' : length target = S (S i)) by (by rewrite <- Hperm).
    destruct target as [|x target _] using rev_ind; [done|].
    rewrite length_app in Hlen'. simpl in Hlen'.
    assert (Hx : x ∈ pre) by (rewrite Hperm; set_solver).
    apply list_elem_of_lookup in Hx as [j Hj].
    pose proof (lookup_lt_Some _ _ _ Hj) as Hjlt.
    destruct (lookup_lt_is_Some_2 pre (S i)) as [e He]; [lia|].
    destruct (swap_lookups pre (S i) j e x He Hj) as [Hswap Hlast].
    pose proof (swap_perm pre (S i) j) as Hsp.
    assert (Hswaplen : length (JsArray.swap pre (S i) j) = S (S i))
      by (by rewrite Hsp).
    pose proof (snoc_last _ _ _ Hlast Hswaplen) as Hsnoc.
    set (pre' := take (S i) (JsArray.swap pre (S i) j)) in *.
    assert (Hperm' : pre' ≡ₚ target).
    { apply (Permutation_app_inv_r [x]). by rewrite <- Hsnoc, Hsp. }
    assert (Hlenpre' : length pre' = S i).
    { unfold pre'. rewrite length_take. lia. }
    destruct (IH pre' (x :: suf) target Hlenpre' Hperm') as (draws & Hd & Hrun).
    exists (j :: draws). split; [simpl; lia|].
    cbn [shuffle_draws]. rewrite Nat.mod_small by lia.
    rewrite swap_app by lia. rewrite Hsnoc, <- !app_assoc. exact Hrun.
Qed.

Lemma shuffle_from_calls tape i array st :
  randomCalls (shuffle_from tape i array st).2 = (randomCalls st + i)%nat.
Proof.
  revert array st. induction i as [|i IH]; intros array st; simpl; [lia|].
  rewrite IH. simpl. lia.
Qed.

Lemma shuffle_length_calls random_tape array st :
  length (shuffle random_tape array st).1 = length array
  ∧ randomCalls (shuffle random_tape array st).2
    = (randomCalls st + (length array - 1))%nat.
Proof.
  split; [exact (Permutation_length (shuffle_perm random_tape array st))|].
  apply shuffle_from_calls.
Qed.

(** X6. [shuffle] returns a rearrangement of the array it is given: the
    same cards, as many of them. It draws one random number for each
    position but the first, so it advances the random source by the length
    less one, and it touches neither the store of games nor the UUIDs. An
    array of at most one element comes back as it is, without a draw. *)
Theorem shuffle_rearranges (random_tape : nat → nat) (array : list string) (st : Server) :
  (shuffle random_tape array st).1 ≡ₚ array
  ∧ length (shuffle random_tape array st).1 = length array
  ∧ randomCalls (shuffle random_tape array st).2
    = (randomCalls st + (length array - 1))%nat
  ∧ games (shuffle random_tape array st).2 = games st
  ∧ uuidCalls (shuffle random_tape array st).2 = uuidCalls st
  ∧ ((length array ≤ 1)%nat → (shuffle random_tape array st).1 = array).
Proof.
  pose proof (shuffle_perm random_tape array st) as Hperm.
  pose proof (shuffle_server random_tape array st) as [Hg Hu].
  split; [exact Hperm|]. split; [exact (Permutation_length Hperm)|].
  split; [apply shuffle_from_calls|]. split; [exact Hg|]. split; [exact Hu|].
  intros Hshort. unfold shuffle.
  replace (length array - 1)%nat with 0%nat by lia. reflexivity.
Qed.

(** X7. Every order of the array can come out of [shuffle]: for each
    rearrangement of the array there is a sequence of random draws on which
    [shuffle] returns exactly that rearrangement. *)
Theorem shuffle_reaches_every_order (array target : list string) (st : Server) :
  array ≡ₚ target →
  ∃ random_tape, (shuffle random_tape array st).1 = target.
Proof.
  intros Hperm. unfold shuffle.
  destruct array as [|x array].
  - apply Permutation_nil_l in Hperm. subst target. exists (λ _, 0%nat). reflexivity.
  - destruct (draws_exist (length array) (x :: array) [] target eq_refl Hperm)
      as (draws & Hlen & Hrun).
    rewrite !app_nil_r in Hrun.
    exists (tape_of (randomCalls st) draws).
    replace (length (x :: array) - 1)%nat with (length array) by (simpl; lia).
    rewrite (shuffle_from_draws _ _ _ _ draws Hlen); [exact Hrun|].
    intros k _. apply tape_of_plays.
Qed.

Lemma shuffle_reaches_every_order_sample :
  ["AS"; "KS"; "QS"] ≡ₚ ["QS"; "AS"; "KS"]
  ∧ ∃ random_tape, (shuffle random_tape ["AS"; "KS"; "QS"] boot).1 = ["QS"; "AS"; "KS"].
Proof.
  assert (H : ["AS"; "KS"; "QS"] ≡ₚ ["QS"; "AS"; "KS"]).
  { apply (bool_decide_unpack _). vm_compute. reflexivity. }
  split; [exact H|].
  exact (shuffle_reaches_every_order ["AS"; "KS"; "QS"] ["QS"; "AS"; "KS"] boot H).
Defined.

Opaque shuffle.

(** ** [joinGame] and [deal] on any game *)

Lemma find_seat_spec (taken : list (option nat)) :
  match find (λ pos, bool_decide (Some pos ∉ taken)) [0; 1; 2; 3]%nat with
  | Some n => (n < 4)%nat ∧ (Some n ∉ taken) ∧ (∀ m, (m < n)%nat → Some m ∈ taken)
  | None => ∀ m, (m < 4)%nat → Some m ∈ taken
  end.
Proof.
  assert (Hsmall : ∀ m, (m < 4)%nat → m = 0%nat ∨ m = 1%nat ∨ m = 2%nat ∨ m = 3%nat)
    by (intros; lia).
  cbn [find].
  repeat (case_bool_decide;
          [split; [lia|]; split; [assumption|];
           intros m Hm; destruct (Hsmall m ltac:(lia)) as [-> | [-> | [-> | ->]]];
           first [lia | assumption]
          |]).
  intros m Hm. destruct (Hsmall m Hm) as [-> | [-> | [-> | ->]]]; assumption.
Qed.

(** X8. [joinGame] adds the new player at the end of the list of players
    and changes nothing else of the game. The player has the next UUID and
    the name given, and sits at the lowest of the seats 0 to 3 that no
    player of the game holds; when the four seats are all held the player
    has no position. *)
Theorem joinGame_appends (uuid_tape : nat → string) (game : Game.t) (name : string)
    (st : Server) :
  let game' := (joinGame uuid_tape game name st).1.1 in
  let player := (joinGame uuid_tape game name st).1.2 in
  Game.players game' = (Game.players game ++ [player])%list
  ∧ Game.id game' = Game.id game ∧ Game.hostId game' = Game.hostId game
  ∧ Game.status game' = Game.status game ∧ Game.hands game' = Game.hands game
  ∧ Player.id player = uuid_tape (uuidCalls st) ∧ Player.name player = name
  ∧ uuidCalls (joinGame uuid_tape game name st).2 = S (uuidCalls st)
  ∧ match Player.position player with
    | Some n =>
        (n < 4)%nat
        ∧ (Some n ∉ Player.position <$> Game.players game)
        ∧ (∀ m, (m < n)%nat → Some m ∈ Player.position <$> Game.players game)
    | None => ∀ m, (m < 4)%nat → Some m ∈ Player.position <$> Game.players game
    end.
Proof.
  cbv zeta. rewrite joinGame_eq. cbv zeta. cbn [fst snd].
  repeat (split; [reflexivity|]).
  cbn [Player.position]. apply find_seat_spec.
Qed.

Lemma deal_from_hand_lengths deck idx ps g :
  length deck = 52%nat → (idx + length ps ≤ 4)%nat →
  ∀ p, p ∈ ps →
    ∃ h, Game.hands (deal_from deck idx ps g) !! Player.id p = Some h ∧ length h = 13%nat.
Proof.
  intros Hdeck. revert idx g. induction ps as [|p0 ps IH]; intros idx g Hfit p Hp.
  { by apply elem_of_nil in Hp. }
  cbn [length] in Hfit. cbn [deal_from].
  apply elem_of_cons in Hp as [->|Hp]; [|apply IH; [lia | exact Hp]].
  destruct (decide (Player.id p0 ∈ Player.id <$> ps)) as [Hdup|Hfresh].
  - apply list_elem_of_fmap in Hdup as (q & Hid & Hq). rewrite Hid.
    apply IH; [lia | exact Hq].
  - rewrite deal_from_other by exact Hfresh. cbn [Game.hands Game.set_hands].
    rewrite lookup_insert_eq. eexists. split; [reflexivity|].
    apply slice_length. lia.
Qed.




(** ** The store, whatever was served *)

Lemma deal_gives_13 random_tape game st :
  length (Game.players game) = 4%nat →
  ∀ p, p ∈ Game.players game →
    ∃ h, Game.hands (deal random_tape game st).1 !! Player.id p = Some h
         ∧ length h = 13%nat.
Proof.
  intros Hfour p Hp. rewrite deal_eq.
  pose proof (shuffle_length_calls random_tape buildDeck st) as (Hlen & _).
  destruct (shuffle random_tape buildDeck st) as [deck st1]. cbn [fst snd] in *.
  cbn [Game.hands Game.set_status].
  apply deal_from_hand_lengths.
  - exact Hlen.
  - rewrite sort_length. lia.
  - by rewrite sort_perm.
Qed.

Lemma game_ok_created code uuid name :
  code_shaped code → name ≠ "" → JsString.trim name = name →
  game_ok code (Game.mk code uuid "lobby" [Player.mk uuid name (Some 0%nat)] ∅).
Proof.
  intros Hshape Hname Htrim. split; [done|]. split; [done|]. split; [by left|].
  by repeat constructor.
Qed.

Lemma game_ok_step random_tape uuid_tape fuel req resp st st' :
  (∀ code g, games st !! code = Some g → game_ok code g) →
  handleApi random_tape uuid_tape fuel req st = Some (resp, st') →
  ∀ code g, games st' !! code = Some g → game_ok code g.
Proof.
  intros Hinv. unfold handleApi.
  case_decide as Hcreate.
  { case_decide as Hname; [intros [= <- <-]; exact Hinv|].
    unfold createGame.
    destruct (generateCode random_tape fuel st) as [[c st0]|] eqn:Hgen;
      [|intros H; discriminate H].
    pose proof (generateCode_shaped _ _ _ _ _ Hgen) as Hshape.
    apply generateCode_spec in Hgen as (Hg & _ & _).
    cbn. intros [= <- <-] code g. cbn. rewrite Hg.
    destruct (decide (c = code)) as [->|Hne].
    - rewrite lookup_insert_eq. intros [= <-].
      apply game_ok_created; [exact Hshape | exact Hname | apply trim_idem].
    - rewrite lookup_insert_ne by exact Hne. apply Hinv. }
  case_decide as Hjoin.
  { destruct (games_get _ st) as [game|] eqn:Hget; [|intros [= <- <-]; exact Hinv].
    case_decide as Hstatus; [intros [= <- <-]; exact Hinv|].
    case_decide as Hname; [intros [= <- <-]; exact Hinv|].
    case_decide as Hfull; [intros [= <- <-]; exact Hinv|].
    rewrite joinGame_eq. cbv zeta. intros [= <- <-] code g. cbn in Hget |- *.
    destruct (decide (JsString.toUpperCase
                (JsString.trim (default "" (body req !! "gameId"))) = code)) as [Hkey|Hne].
    - subst code. rewrite lookup_insert_eq. intros [= <-].
      destruct (Hinv _ _ Hget) as (Hid & Hshape & Hst & Hnames).
      split; [exact Hid|]. split; [exact Hshape|]. split.
      + left. destruct Hst as [Hl|[Hs _]]; [exact Hl|].
        rewrite Hstatus in Hs. discriminate Hs.
      + cbn. apply Forall_app. split; [exact Hnames|]. constructor; [|constructor].
        cbn. split; [exact Hname | apply trim_idem].
    - rewrite lookup_insert_ne by exact Hne. apply Hinv. }
  case_decide as Hstart.
  { destruct (games_get _ st) as [game|] eqn:Hget; [|intros [= <- <-]; exact Hinv].
    case_decide as Hhost; [intros [= <- <-]; exact Hinv|].
    case_decide as Hfour; [intros [= <- <-]; exact Hinv|].
    unfold games_get in Hget.
    destruct (body req !! "gameId") as [key|]; [|discriminate Hget].
    cbn in Hget.
    assert (Hfour' : length (Game.players game) = 4%nat)
      by (by destruct (decide (length (Game.players game) = 4%nat))).
    pose proof (deal_frame random_tape game st) as (Hid & _ & Hstatus & Hplayers & Hg & _).
    pose proof (deal_gives_13 random_tape game st Hfour') as H13.
    destruct (deal random_tape game st) as [game' st1]. cbn [fst snd] in *.
    intros Heq. apply (inj Some) in Heq. apply pair_equal_spec in Heq as [_ <-].
    intros code g. cbn [store_back set_games games]. rewrite Hg.
    destruct (decide (key = code)) as [->|Hne].
    - rewrite lookup_insert_eq. intros Hsome. apply (inj Some) in Hsome. subst g.
      destruct (Hinv _ _ Hget) as (Hid0 & Hshape & _ & Hnames).
      split; [congruence|]. split; [exact Hshape|]. split.
      + right. split; [exact Hstatus|]. split; [congruence|].
        intros p Hp. apply H13. by rewrite <- Hplayers.
      + by rewrite Hplayers.
    - rewrite lookup_insert_ne by exact Hne. apply Hinv. }
  case_decide as Hstate.
  { destruct (games_get _ st) as [game|] eqn:Hget; [|intros [= <- <-]; exact Hinv].
    destruct (bool_decide _); [|intros [= <- <-]; exact Hinv].
    rewrite Projector_run_eq. intros [= <- <-].
    unfold games_get in Hget. destruct (query req !! "gameId") as [key|]; [|discriminate Hget].
    cbn in Hget. cbn [store_back set_games games]. intros code g.
    rewrite insert_id by exact Hget. apply Hinv. }
  intros [= <- <-]. exact Hinv.
Qed.

Lemma reachable_game_ok random_tape uuid_tape st :
  reachable random_tape uuid_tape st →
  ∀ code g, games st !! code = Some g → game_ok code g.
Proof.
  induction 1 as [|fuel req resp st st' _ IH Hstep].
  - intros code g H. cbn in H. by rewrite lookup_empty in H.
  - eapply game_ok_step; [exact IH | exact Hstep].
Qed.

(** X10. Every game in the store of a server that has served any
    sequence of requests is stored under its own code, a code of five
    characters of the alphabet that the join route looks up unchanged; it is
    either in the lobby with no hands, or started with four players who
    each hold thirteen cards; and no player has a blank or untrimmed
    name. *)
Theorem store_games_ok (random_tape : nat → nat) (uuid_tape : nat → string)
    (st : Server) (code : string) (g : Game.t) :
  reachable random_tape uuid_tape st →
  games st !! code = Some g →
  Game.id g = code
  ∧ code_shaped code
  ∧ normalize_code code = code
  ∧ ((Game.status g = "lobby" ∧ Game.hands g = ∅)
     ∨ (Game.status g = "started"
        ∧ length (Game.players g) = 4%nat
        ∧ ∀ p, p ∈ Game.players g →
               ∃ h, Game.hands g !! Player.id p = Some h ∧ length h = 13%nat))
  ∧ Forall (λ p, Player.name p ≠ "" ∧ JsString.trim (Player.name p) = Player.name p)
      (Game.players g).
Proof.
  intros Hreach Hg.
  destruct (reachable_game_ok random_tape uuid_tape st Hreach code g Hg)
    as (Hid & Hshape & Hst & Hnames).
  split; [exact Hid|]. split; [exact Hshape|].
  split; [by apply code_shaped_normal|]. split; [exact Hst | exact Hnames].
Qed.

Lemma store_games_ok_sample :
  (reachable sample_random sample_uuid lobby_of_four
   ∧ games lobby_of_four !! "DLT29" = Some sample_lobby)
  ∧ code_shaped "DLT29".
Proof.
  split; [split; [exact lobby_of_four_reachable | exact lobby_of_four_game]|].
  exact (proj1 (proj2 (store_games_ok sample_random sample_uuid lobby_of_four "DLT29"
                         sample_lobby lobby_of_four_reachable lobby_of_four_game))).
Defined.

Lemma refusal_changes_nothing random_tape uuid_tape fuel req resp st st' :
  handleApi random_tape uuid_tape fuel req st = Some (resp, st') →
  (statusCode resp ≠ 200%nat ∨ method req ≠ "POST") → st' = st.
Proof.
  unfold handleApi.
  case_decide as Hcreate.
  { case_decide as Hname; [by intros [= <- <-]|].
    destruct (createGame _ _ _ _ _) as [[[game player] st1]|]; [|intros H; discriminate H].
    cbn. intros [= <- <-] [Hcode|Hm]; [by destruct Hcode | by destruct Hm, Hcreate]. }
  case_decide as Hjoin.
  { destruct (games_get _ st) as [game|]; [|by intros [= <- <-]].
    case_decide; [by intros [= <- <-]|].
    case_decide; [by intros [= <- <-]|].
    case_decide; [by intros [= <- <-]|].
    rewrite joinGame_eq. cbv zeta.
    intros [= <- <-] [Hcode|Hm]; [by destruct Hcode | by destruct Hm, Hjoin]. }
  case_decide as Hstart.
  { destruct (games_get _ st) as [game|]; [|by intros [= <- <-]].
    case_decide; [by intros [= <- <-]|].
    case_decide; [by intros [= <- <-]|].
    destruct (deal random_tape game st) as [game' st1].
    intros Heq. apply (inj Some) in Heq. apply pair_equal_spec in Heq as [<- _].
    intros [Hcode|Hm]; [by destruct Hcode | by destruct Hm, Hstart]. }
  case_decide as Hstate.
  { destruct (games_get _ st) as [game|] eqn:Hget; [|by intros [= <- <-]].
    destruct (bool_decide _); [|by intros [= <- <-]].
    rewrite Projector_run_eq. intros [= <- <-] _.
    unfold games_get in Hget. destruct (query req !! "gameId") as [key|]; [|discriminate Hget].
    cbn in Hget. cbn [store_back]. unfold set_games. rewrite insert_id by exact Hget.
    by destruct st. }
  by intros [= <- <-].
Qed.

(** X11. A request that is answered changes at most one game of the
    store, and never removes a game. A request answered with any status but
    200, and any request that is not a POST, leaves the whole server as it
    was. *)
Theorem requests_touch_one_game (random_tape : nat → nat) (uuid_tape : nat → string)
    (fuel : nat) (req : Request) (resp : Response) (st st' : Server) :
  handleApi random_tape uuid_tape fuel req st = Some (resp, st') →
  (statusCode resp ≠ 200%nat → st' = st)
  ∧ (method req ≠ "POST" → st' = st)
  ∧ (∃ code, ∀ c, c ≠ code → games st' !! c = games st !! c)
  ∧ (∀ c, is_Some (games st !! c) → is_Some (games st' !! c)).
Proof.
  intros Hstep.
  split; [intros H; eapply refusal_changes_nothing; eauto|].
  split; [intros H; eapply refusal_changes_nothing; eauto|].
  pose proof (handleApi_cases _ _ _ _ _ _ _ Hstep) as Heff.
  split.
  - destruct Heff as [-> | name game player Hc | c game name _ _ _ Hgames _
                     | c game _ _ Hgames _].
    + by exists "".
    + apply createGame_spec in Hc as (c & _ & _ & _ & -> & _).
      exists c. intros c' Hne. by rewrite lookup_insert_ne.
    + exists c. intros c' Hne. rewrite Hgames. by rewrite lookup_insert_ne.
    + exists c. intros c' Hne. rewrite Hgames. rewrite lookup_insert_ne; [reflexivity|].
      congruence.
  - intros c [g Hg].
    destruct (host_step _ _ _ _ _ c g Heff Hg) as (g' & Hg' & _). by exists g'.
Qed.

Lemma requests_touch_one_game_sample :
  handleApi sample_random sample_uuid 1
    (post "/api/game/join" [("gameId", "DLT29"); ("name", "Eve")]) lobby_of_four
  = Some (sendJson 400 (JsonError "Game is full"), lobby_of_four)
  ∧ (statusCode (sendJson 400 (JsonError "Game is full")) ≠ 200%nat
     → lobby_of_four = lobby_of_four).
Proof.
  assert (H : handleApi sample_random sample_uuid 1
                (post "/api/game/join" [("gameId", "DLT29"); ("name", "Eve")]) lobby_of_four
              = Some (sendJson 400 (JsonError "Game is full"), lobby_of_four))
    by (vm_compute; reflexivity).
  split; [exact H|].
  exact (proj1 (requests_touch_one_game sample_random sample_uuid 1 _ _ _ _ H)).
Defined.

Lemma players_step random_tape uuid_tape fuel st st' code g :
  store_effect random_tape uuid_tape fuel st st' →
  games st !! code = Some g →
  ∃ g', games st' !! code = Some g'
        ∧ Game.players g `prefix_of` Game.players g'
        ∧ (Game.status g = "started" →
           Game.players g' = Game.players g ∧ Game.status g' = "started").
Proof.
  intros Heff Hg.
  destruct Heff as [-> | name game player Hc | c game name Hc Hlobby _ Hgames _
                   | c game Hc _ Hgames _].
  - exists g. by split.
  - apply createGame_spec in Hc as (c & Hnew & _ & _ & -> & _).
    exists g. rewrite lookup_insert_ne by congruence. by split.
  - rewrite Hgames. destruct (decide (c = code)) as [->|Hne].
    + rewrite lookup_insert_eq. eexists. split; [reflexivity|].
      rewrite joinGame_eq. cbn. simplify_eq. split; [by apply prefix_app_r|].
      intros Hs. rewrite Hlobby in Hs. discriminate Hs.
    + rewrite lookup_insert_ne by done. exists g. by split.
  - rewrite Hgames. destruct (decide (c = code)) as [->|Hne].
    + rewrite lookup_insert_eq. eexists. split; [reflexivity|].
      pose proof (deal_frame random_tape game st) as (_ & _ & Hs & Hp & _).
      rewrite Hp, Hs. assert (game = g) as -> by congruence.
      split; [reflexivity|]. intros _. split; reflexivity.
    + rewrite lookup_insert_ne by exact Hne. exists g.
      split; [exact Hg|]. split; [reflexivity|]. intros Hs. split; [reflexivity | exact Hs].
Qed.

Lemma players_later random_tape uuid_tape st st' code g :
  later random_tape uuid_tape st st' →
  games st !! code = Some g →
  ∃ g', games st' !! code = Some g'
        ∧ Game.players g `prefix_of` Game.players g'
        ∧ (Game.status g = "started" →
           Game.players g' = Game.players g ∧ Game.status g' = "started").
Proof.
  intros Hlater Hg. induction Hlater as [|fuel req resp st1 st2 _ IH Hstep].
  - exists g. split; [exact Hg|]. split; [reflexivity|]. intros Hs. by split.
  - destruct IH as (g1 & Hg1 & Hpre1 & Hfrozen1).
    destruct (players_step random_tape uuid_tape fuel st1 st2 code g1) as (g2 & Hg2 & Hpre2 & Hfrozen2);
      [by eapply handleApi_cases | exact Hg1 |].
    exists g2. split; [exact Hg2|]. split; [by etrans|].
    intros Hs. destruct (Hfrozen1 Hs) as [Hp1 Hs1]. destruct (Hfrozen2 Hs1) as [Hp2 Hs2].
    split; [congruence | exact Hs2].
Qed.

(** X12. Players never leave a game: whatever requests are served later,
    the game is still stored under its code and its list of players is the
    old one with, possibly, new players at the end. Once a game is started
    its list of players is final and it stays started. *)
Theorem players_never_leave (random_tape : nat → nat) (uuid_tape : nat → string)
    (st st' : Server) (code : string) (g : Game.t) :
  later random_tape uuid_tape st st' →
  games st !! code = Some g →
  ∃ g', games st' !! code = Some g'
        ∧ Game.players g `prefix_of` Game.players g'
        ∧ (Game.status g = "started" →
           Game.players g' = Game.players g ∧ Game.status g' = "started").
Proof. apply players_later. Qed.

Lemma players_never_leave_sample :
  (later sample_random sample_uuid lobby_of_four dealt_once
   ∧ games lobby_of_four !! "DLT29" = Some sample_lobby)
  ∧ ∃ g', games dealt_once !! "DLT29" = Some g'
          ∧ Game.players sample_lobby `prefix_of` Game.players g'.
Proof.
  assert (Hlater : later sample_random sample_uuid lobby_of_four dealt_once).
  { apply (later_step sample_random sample_uuid lobby_of_four 1 start_by_host
             (sendJson 200 JsonOk) lobby_of_four dealt_once); [apply later_now|].
    vm_compute. reflexivity. }
  split; [split; [exact Hlater | exact lobby_of_four_game]|].
  destruct (players_never_leave sample_random sample_uuid lobby_of_four dealt_once
              "DLT29" sample_lobby Hlater lobby_of_four_game) as (g' & H1 & H2 & _).
  exists g'. split; [exact H1 | exact H2].
Defined.

(** ** The state route and the page *)

Lemma state_route random_tape uuid_tape fuel b q st code game :
  q !! "gameId" = Some code → games st !! code = Some game →
  handleApi random_tape uuid_tape fuel (mkRequest "GET" "/api/game/state" b q) st
  = Some (if bool_decide (Exists (λ p, Some (Player.id p) = q !! "playerId")
                            (Game.players game))
          then sendJson 200 (JsonView (projectGameForPlayer game (default "" (q !! "playerId"))))
          else sendJson 403 (JsonError "You are not part of this game"),
          st).
Proof.
  intros Hq Hg. enter_route. rewrite Hq. unfold games_get. cbn [mbind option_bind].
  rewrite Hg. destruct (bool_decide _); [|reflexivity].
  unfold projectGameForPlayer. rewrite Projector_run_eq. cbn [fst store_back].
  unfold set_games. rewrite insert_id by exact Hg. by destruct st.
Qed.

Lemma state_route_member random_tape uuid_tape fuel b q st code game playerId :
  q !! "gameId" = Some code → games st !! code = Some game →
  q !! "playerId" = Some playerId →
  playerId ∈ Player.id <$> Game.players game →
  handleApi random_tape uuid_tape fuel (mkRequest "GET" "/api/game/state" b q) st
  = Some (sendJson 200 (JsonView (projectGameForPlayer game playerId)), st).
Proof.
  intros Hq Hg Hp Hin. rewrite (state_route _ _ _ _ _ _ code game Hq Hg).
  rewrite Hp. cbn [default].
  rewrite bool_decide_eq_true_2; [reflexivity|].
  apply list_elem_of_fmap in Hin as (p & -> & Hin).
  apply Exists_exists. by exists p.
Qed.

(** X13. The state route answers a player of the game with status 200 and
    the view [projectGameForPlayer] makes for that player, and leaves the
    server as it is; it answers 403 when the id of the query is not the id
    of a player of the game, or is missing. *)
Theorem state_is_for_members (random_tape : nat → nat) (uuid_tape : nat → string)
    (fuel : nat) (b q : gmap string string) (st : Server) (code : string) (game : Game.t) :
  q !! "gameId" = Some code →
  games st !! code = Some game →
  (∀ playerId,
     q !! "playerId" = Some playerId →
     playerId ∈ Player.id <$> Game.players game →
     handleApi random_tape uuid_tape fuel (mkRequest "GET" "/api/game/state" b q) st
     = Some (sendJson 200 (JsonView (projectGameForPlayer game playerId)), st))
  ∧ ((∀ playerId, q !! "playerId" = Some playerId →
                  playerId ∉ Player.id <$> Game.players game) →
     handleApi random_tape uuid_tape fuel (mkRequest "GET" "/api/game/state" b q) st
     = Some (sendJson 403 (JsonError "You are not part of this game"), st)).
Proof.
  intros Hq Hg. split.
  - intros playerId Hp Hin. by apply (state_route_member _ _ _ _ _ _ code).
  - intros Hnot. rewrite (state_route _ _ _ _ _ _ code game Hq Hg).
    rewrite bool_decide_eq_false_2; [reflexivity|].
    intros Hex. apply Exists_exists in Hex as (p & Hin & Hp).
    symmetry in Hp. apply (Hnot _ Hp). by apply list_elem_of_fmap_2.
Qed.

Lemma state_is_for_members_sample :
  games lobby_of_four !! "DLT29" = Some sample_lobby
  ∧ handleApi sample_random sample_uuid 1
      (get "/api/game/state" [("gameId", "DLT29"); ("playerId", "p2")]) lobby_of_four
    = Some (sendJson 200 (JsonView (projectGameForPlayer sample_lobby "p2")), lobby_of_four).
Proof.
  split; [exact lobby_of_four_game|].
  refine (proj1 (state_is_for_members sample_random sample_uuid 1 ∅
                   (list_to_map [("gameId", "DLT29"); ("playerId", "p2")])
                   lobby_of_four "DLT29" sample_lobby _ lobby_of_four_game) "p2" _ _).
  - vm_compute. reflexivity.
  - vm_compute. reflexivity.
  - apply (bool_decide_unpack _). vm_compute. reflexivity.
Defined.


(** A 200 answer with a seat comes with the player stored in the game the
    answer names. *)
Lemma seat_answer_stored random_tape uuid_tape fuel req resp st st' gid pid pos :
  (∀ code g, games st !! code = Some g → game_ok code g) →
  handleApi random_tape uuid_tape fuel req st = Some (resp, st') →
  payload resp = JsonSeat gid pid pos →
  ∃ g p, games st' !! gid = Some g ∧ Game.id g = gid
         ∧ p ∈ Game.players g ∧ Player.id p = pid ∧ Player.position p = pos.
Proof.
  intros Hinv. unfold handleApi.
  case_decide as Hcreate.
  { case_decide as Hname; [by intros [= <- <-]|].
    destruct (createGame _ _ _ _ _) as [[[game player] st1]|] eqn:Hc;
      [|intros H; discriminate H].
    apply createGame_spec in Hc as (c & _ & -> & -> & Hgames & _).
    cbn. intros [= <- <-] [= <- <- <-]. rewrite Hgames, lookup_insert_eq.
    eexists _, _. split; [reflexivity|]. cbn. split; [reflexivity|].
    split; [by left|]. by split. }
  case_decide as Hjoin.
  { destruct (games_get _ st) as [game|] eqn:Hget; [|by intros [= <- <-]].
    case_decide; [by intros [= <- <-]|].
    case_decide; [by intros [= <- <-]|].
    case_decide; [by intros [= <- <-]|].
    rewrite joinGame_eq. cbv zeta. cbn in Hget.
    destruct (Hinv _ _ Hget) as (Hid & _).
    intros [= <- <-] [= <- <- <-]. cbn. rewrite Hid, lookup_insert_eq.
    eexists _, _. split; [reflexivity|]. cbn. split; [exact Hid|].
    split; [apply elem_of_app; right; by left|]. by split. }
  case_decide as Hstart.
  { destruct (games_get _ st) as [game|]; [|by intros [= <- <-]].
    case_decide; [by intros [= <- <-]|].
    case_decide; [by intros [= <- <-]|].
    destruct (deal random_tape game st) as [game' st1].
    intros Heq. apply (inj Some) in Heq. apply pair_equal_spec in Heq as [<- _].
    intros Hpay. discriminate Hpay. }
  case_decide as Hstate.
  { destruct (games_get _ st) as [game|]; [|by intros [= <- <-]].
    destruct (bool_decide _); [|by intros [= <- <-]].
    destruct (Projector.run _ _) as [view game']. by intros [= <- <-]. }
  by intros [= <- <-].
Qed.

(** X14. The session the page saves from the answer to a create or join
    request keeps working: however many requests the server serves
    afterwards, the poll the page sends for that session is answered 200
    with the view of the game of the session for the player of the session;
    the view carries the code of the session and lists the player, marked
    as you. *)
Theorem saved_session_polls (random_tape : nat → nat) (uuid_tape : nat → string)
    (fuel fuel' : nat) (req : Request) (resp : Response) (st st1 st2 : Server)
    (name : string) (session : Client.Session) :
  reachable random_tape uuid_tape st →
  handleApi random_tape uuid_tape fuel req st = Some (resp, st1) →
  Client.saveSession name resp = Some session →
  later random_tape uuid_tape st1 st2 →
  ∃ poll game,
    Client.pollOnce (Some session) = Some poll
    ∧ games st2 !! Client.gameId session = Some game
    ∧ handleApi random_tape uuid_tape fuel' poll st2
      = Some (sendJson 200
                (JsonView (projectGameForPlayer game (Client.playerId session))), st2)
    ∧ View.gameId (projectGameForPlayer game (Client.playerId session))
      = Client.gameId session
    ∧ ∃ e, e ∈ View.players (projectGameForPlayer game (Client.playerId session))
           ∧ PlayerView.id e = Client.playerId session
           ∧ PlayerView.isYou e = true.
Proof.
  intros Hreach Hstep Hsaved Hlater.
  unfold Client.saveSession in Hsaved.
  destruct (Client.res_ok resp); [|discriminate Hsaved].
  destruct (payload resp) as [| gid pid pos | | |] eqn:Hpayload; try discriminate Hsaved.
  injection Hsaved as <-. cbn [Client.gameId Client.playerId].
  destruct (seat_answer_stored _ _ _ _ _ _ _ gid pid pos
              (reachable_game_ok _ _ _ Hreach) Hstep Hpayload)
    as (g1 & p & Hg1 & Hid1 & Hp & Hpid & _).
  destruct (players_later _ _ _ _ gid g1 Hlater Hg1) as (g2 & Hg2 & Hprefix & _).
  destruct (host_forever _ _ _ _ gid g1 Hlater Hg1) as (g2' & Hg2' & _ & Hid2).
  assert (g2' = g2) as -> by congruence.
  assert (Hp2 : p ∈ Game.players g2).
  { destruct Hprefix as [k ->]. apply elem_of_app. by left. }
  exists (get "/api/game/state" [("gameId", gid); ("playerId", pid)]), g2.
  split; [reflexivity|]. split; [exact Hg2|]. split.
  - unfold get.
    apply (state_route_member random_tape uuid_tape fuel' ∅
             (list_to_map [("gameId", gid); ("playerId", pid)]) st2 gid g2 pid
             (lookup_field1 _ _ _ _) Hg2).
    + by apply lookup_field2.
    + rewrite <- Hpid. by apply list_elem_of_fmap_2.
  - unfold projectGameForPlayer. rewrite Projector_run_eq. cbn.
    split; [congruence|].
    exists (Projector.projectPlayer g2 pid p).
    split; [by apply list_elem_of_fmap_2|]. cbn. split; [exact Hpid|].
    by apply bool_decide_eq_true.
Qed.

Lemma saved_session_polls_sample :
  (reachable sample_random sample_uuid boot
   ∧ handleApi sample_random sample_uuid 1
       (post "/api/game/create" [("name", "Ann")]) boot
     = Some (sendJson 200 (JsonSeat "DLT29" "p0" (Some 0%nat)),
             (serve [post "/api/game/create" [("name", "Ann")]] boot).2)
   ∧ Client.saveSession "Ann" (sendJson 200 (JsonSeat "DLT29" "p0" (Some 0%nat)))
     = Some (Client.mkSession "DLT29" "p0" "Ann"))
  ∧ ∃ poll game,
      Client.pollOnce (Some (Client.mkSession "DLT29" "p0" "Ann")) = Some poll
      ∧ games (serve [post "/api/game/create" [("name", "Ann")]] boot).2 !! "DLT29"
        = Some game
      ∧ handleApi sample_random sample_uuid 0 poll
          (serve [post "/api/game/create" [("name", "Ann")]] boot).2
        = Some (sendJson 200 (JsonView (projectGameForPlayer game "p0")),
                (serve [post "/api/game/create" [("name", "Ann")]] boot).2).
Proof.
  set (st1 := (serve [post "/api/game/create" [("name", "Ann")]] boot).2).
  assert (Hstep : handleApi sample_random sample_uuid 1
                    (post "/api/game/create" [("name", "Ann")]) boot
                  = Some (sendJson 200 (JsonSeat "DLT29" "p0" (Some 0%nat)), st1))
    by (vm_compute; reflexivity).
  assert (Hsaved : Client.saveSession "Ann" (sendJson 200 (JsonSeat "DLT29" "p0" (Some 0%nat)))
                   = Some (Client.mkSession "DLT29" "p0" "Ann")) by reflexivity.
  split; [split; [apply reachable_boot | split; [exact Hstep | exact Hsaved]]|].
  destruct (saved_session_polls sample_random sample_uuid 1 0 _ _ boot st1 st1 "Ann" _
              (reachable_boot _ _) Hstep Hsaved (later_now _ _ _))
    as (poll & game & H1 & H2 & H3 & _).
  exists poll, game. split; [exact H1|]. split; [exact H2 | exact H3].
Defined.

Lemma start_button_enabled game playerId :
  Client.updateStartButton (Some (projectGameForPlayer game playerId)) = false
  ↔ (∃ p, p ∈ Game.players game ∧ Player.id p = Game.hostId game
          ∧ Player.id p = playerId)
    ∧ length (Game.players game) = 4%nat
    ∧ Game.status game = "lobby".
Proof.
  unfold Client.updateStartButton, projectGameForPlayer.
  rewrite Projector_run_eq. cbn [fst View.players View.status].
  rewrite negb_false_iff, !andb_true_iff, length_fmap, Nat.eqb_eq, bool_decide_eq_true.
  rewrite existsb_exists.
  split.
  - intros ((e & He & Hboth) & Hlen & Hstatus). split; [|by split].
    apply list_elem_of_In, list_elem_of_fmap in He as (p & -> & Hp).
    cbn in Hboth. apply andb_true_iff in Hboth as [Hh Hy].
    apply bool_decide_eq_true in Hh, Hy. by exists p.
  - intros ((p & Hp & Hh & Hy) & Hlen & Hstatus). split; [|by split].
    exists (Projector.projectPlayer game playerId p). split.
    + apply list_elem_of_In. by apply list_elem_of_fmap_2.
    + cbn. apply andb_true_iff. split; by apply bool_decide_eq_true.
Qed.

(** X15. For a game of the store, the page enables the start button
    exactly for the host of a lobby of four. When the button is enabled, the
    request [onStart] sends for the session of that player is accepted: the
    server answers 200 and the game is stored as started. The button is
    disabled for every view of a started game. *)
Theorem enabled_start_is_accepted (random_tape : nat → nat) (uuid_tape : nat → string)
    (fuel : nat) (st : Server) (code : string) (game : Game.t) (playerId : string) :
  reachable random_tape uuid_tape st →
  games st !! code = Some game →
  let view := projectGameForPlayer game playerId in
  (Client.updateStartButton (Some view) = false
   ↔ playerId = Game.hostId game
     ∧ length (Game.players game) = 4%nat
     ∧ Game.status game = "lobby")
  ∧ (Client.updateStartButton (Some view) = false →
     ∀ name, ∃ req st',
       Client.onStart (Some (Client.mkSession (View.gameId view) playerId name)) = Some req
       ∧ handleApi random_tape uuid_tape fuel req st = Some (sendJson 200 JsonOk, st')
       ∧ Game.status <$> games st' !! code = Some "started")
  ∧ (Game.status game = "started" → Client.updateStartButton (Some view) = true).
Proof.
  intros Hreach Hg. cbv zeta.
  destruct (reachable_game_ok _ _ _ Hreach code game Hg) as (Hid & _).
  destruct (reachable_lobby_ok _ _ _ Hreach code game Hg) as (_ & _ & creator & Hc0 & _ & Hhost).
  assert (Hiff : Client.updateStartButton (Some (projectGameForPlayer game playerId)) = false
                 ↔ playerId = Game.hostId game
                   ∧ length (Game.players game) = 4%nat
                   ∧ Game.status game = "lobby").
  { rewrite start_button_enabled. split.
    - intros ((p & _ & Hh & Hy) & Hlen & Hs). split; [congruence | by split].
    - intros (-> & Hlen & Hs). split; [|by split].
      exists creator. split; [by eapply list_elem_of_lookup_2|]. by split. }
  split; [exact Hiff|]. split.
  - intros Henabled name. apply Hiff in Henabled as (-> & Hlen & _).
    unfold projectGameForPlayer. rewrite Projector_run_eq. cbn [fst View.gameId].
    rewrite Hid. cbn [Client.onStart Client.gameId Client.playerId].
    pose proof (start_deals random_tape uuid_tape fuel
                  (list_to_map [("gameId", code); ("playerId", Game.hostId game)]) ∅
                  st code game (lookup_field1 _ _ _ _) Hg
                  (lookup_field2 "gameId" "playerId" _ _ ltac:(done)) Hlen) as Hstep.
    pose proof (deal_frame random_tape game st) as (_ & _ & Hstatus & _).
    destruct (deal random_tape game st) as [game' st1]. cbn [fst snd] in *.
    eexists _, _. split; [reflexivity|]. split; [exact Hstep|].
    cbn [store_back set_games games]. rewrite lookup_insert_eq. cbn.
    by rewrite Hstatus.
  - intros Hstarted.
    apply not_false_iff_true. intros Hbutton.
    apply Hiff in Hbutton as (_ & _ & Hlobby). rewrite Hlobby in Hstarted.
    discriminate Hstarted.
Qed.

Lemma enabled_start_is_accepted_sample :
  (reachable sample_random sample_uuid lobby_of_four
   ∧ games lobby_of_four !! "DLT29" = Some sample_lobby)
  ∧ Client.updateStartButton (Some (projectGameForPlayer sample_lobby "p0")) = false
  ∧ Client.updateStartButton (Some (projectGameForPlayer sample_lobby "p1")) = true.
Proof.
  split; [split; [exact lobby_of_four_reachable | exact lobby_of_four_game]|].
  pose proof (enabled_start_is_accepted sample_random sample_uuid 1 lobby_of_four
                "DLT29" sample_lobby "p0" lobby_of_four_reachable lobby_of_four_game)
    as (Hiff & _).
  split.
  - apply Hiff. vm_compute. repeat split; reflexivity.
  - vm_compute. reflexivity.
Defined.

(** X18. What the page shows of a game of the store to one of its players
    is one of two pictures. Either the status line reads "Lobby", the hand
    is empty and every player is listed with no cards; or it reads "Cards
    dealt", there are four players, the hand has thirteen cards and every
    player is listed with thirteen. The page never reads "Idle" for a game
    the server answered with. *)
Theorem status_line_tells_deal (random_tape : nat → nat) (uuid_tape : nat → string)
    (st : Server) (code : string) (game : Game.t) (playerId : string) :
  reachable random_tape uuid_tape st →
  games st !! code = Some game →
  playerId ∈ Player.id <$> Game.players game →
  let view := projectGameForPlayer game playerId in
  (Client.formatStatus (View.status view) = "Lobby"
   ∧ View.hand view = []
   ∧ ∀ e, e ∈ View.players view → PlayerView.handSize e = 0%nat)
  ∨ (Client.formatStatus (View.status view) = "Cards dealt"
     ∧ length (View.players view) = 4%nat
     ∧ length (View.hand view) = 13%nat
     ∧ ∀ e, e ∈ View.players view → PlayerView.handSize e = 13%nat).
Proof.
  intros Hreach Hg Hmember. cbv zeta.
  destruct (reachable_game_ok _ _ _ Hreach code game Hg)
    as (_ & _ & [[Hstatus Hhands] | (Hstatus & Hlen & Hdealt)] & _);
    unfold projectGameForPlayer; rewrite Projector_run_eq; cbn [fst];
    cbn [View.players View.hand View.status]; rewrite Hstatus.
  - left. split; [reflexivity|]. rewrite Hhands, lookup_empty. split; [reflexivity|].
    intros e He. apply list_elem_of_fmap in He as (p & -> & _).
    cbn. unfold Projector.handSize. by rewrite Hhands, lookup_empty.
  - right. split; [reflexivity|]. split; [by rewrite length_fmap|].
    split.
    + rewrite sort_length. apply list_elem_of_fmap in Hmember as (p & -> & Hp).
      destruct (Hdealt p Hp) as (h & -> & Hh). exact Hh.
    + intros e He. apply list_elem_of_fmap in He as (p & -> & Hp).
      cbn. unfold Projector.handSize.
      destruct (Hdealt p Hp) as (h & -> & Hh). exact Hh.
Qed.

Lemma status_line_tells_deal_sample :
  (reachable sample_random sample_uuid lobby_of_four
   ∧ games lobby_of_four !! "DLT29" = Some sample_lobby
   ∧ "p2" ∈ Player.id <$> Game.players sample_lobby)
  ∧ ((Client.formatStatus (View.status (projectGameForPlayer sample_lobby "p2")) = "Lobby"
      ∧ View.hand (projectGameForPlayer sample_lobby "p2") = []
      ∧ ∀ e, e ∈ View.players (projectGameForPlayer sample_lobby "p2") →
             PlayerView.handSize e = 0%nat)
     ∨ (Client.formatStatus (View.status (projectGameForPlayer sample_lobby "p2"))
        = "Cards dealt"
        ∧ length (View.players (projectGameForPlayer sample_lobby "p2")) = 4%nat
        ∧ length (View.hand (projectGameForPlayer sample_lobby "p2")) = 13%nat
        ∧ ∀ e, e ∈ View.players (projectGameForPlayer sample_lobby "p2") →
               PlayerView.handSize e = 13%nat)).
Proof.
  assert (Hmember : "p2" ∈ Player.id <$> Game.players sample_lobby).
  { apply (bool_decide_unpack _). vm_compute. reflexivity. }
  split; [split; [exact lobby_of_four_reachable | split; [exact lobby_of_four_game | exact Hmember]]|].
  exact (status_line_tells_deal sample_random sample_uuid lobby_of_four "DLT29"
           sample_lobby "p2" lobby_of_four_reachable lobby_of_four_game Hmember).
Defined.

(** *** The seats of the table *)

Lemma find_first {A} (f : A → bool) (l : list A) (y : nat) (x : A) :
  l !! y = Some x → f x = true →
  (∀ j x', (j < y)%nat → l !! j = Some x' → f x' = false) →
  find f l = Some x.
Proof.
  revert y. induction l as [|a l IH]; intros y Hy Hx Hbefore; [by destruct y|].
  destruct y as [|y]; cbn [find].
  - cbn in Hy. apply (inj Some) in Hy. subst a. by rewrite Hx.
  - rewrite (Hbefore 0%nat a ltac:(lia) eq_refl).
    apply (IH y Hy Hx). intros j x' Hj Hl. apply (Hbefore (S j) x'); [lia | exact Hl].
Qed.

Section SeatFold.

Variable key : PlayerView.t → option string.
Variable val : PlayerView.t → Client.Seat.

Lemma seat_fold_other (players : list PlayerView.t) seats s :
  (∀ p, p ∈ players → key p ≠ Some s) →
  foldl (seat_step key val) seats players !! s = seats !! s.
Proof.
  revert seats. induction players as [|p players IH]; intros seats Hkeys; [reflexivity|].
  cbn [foldl]. rewrite IH by (intros p' Hp'; apply Hkeys; by right).
  unfold seat_step. pose proof (Hkeys p ltac:(by left)) as Hp.
  destruct (key p) as [s'|]; [|reflexivity].
  case_bool_decide; [|reflexivity].
  apply lookup_insert_ne. congruence.
Qed.

Lemma seat_fold_at (players : list PlayerView.t) seats s k p :
  players !! k = Some p → key p = Some s → s ∈ Client.seatNames →
  (∀ j p', (k < j)%nat → players !! j = Some p' → key p' ≠ Some s) →
  foldl (seat_step key val) seats players !! s = Some (val p).
Proof.
  revert seats k. induction players as [|a players IH]; intros seats k Hk Hkey Hs Hafter;
    [by destruct k|].
  destruct k as [|k]; cbn [foldl].
  - cbn in Hk. apply (inj Some) in Hk. subst a.
    rewrite seat_fold_other.
    + unfold seat_step. rewrite Hkey, bool_decide_eq_true_2 by exact Hs.
      apply lookup_insert_eq.
    + intros p' Hp'. apply list_elem_of_lookup in Hp' as [j Hj].
      apply (Hafter (S j) p'); [lia | exact Hj].
  - apply (IH _ k Hk Hkey Hs). intros j p' Hj Hl.
    apply (Hafter (S j) p'); [lia | exact Hl].
Qed.

End SeatFold.

Lemma updateSeats_fold lastStatus players :
  Client.updateSeats lastStatus players
  = foldl (seat_step
             (λ player, Client.seatFor (Z.of_nat <$> PlayerView.position player)
                          (Client.yourPos players))
             (λ player, Client.mkSeat (Client.seatLabelOf player)
                          (Client.seatCardsOf lastStatus player)))
      (list_to_map ((λ seatName, (seatName, Client.mkSeat "Waiting…" Client.NoCards))
                      <$> Client.seatNames))
      players.
Proof. reflexivity. Qed.

(** Seat [r] of south, west, north, east is the seat of the player [r]
    places after the requester, counted round the four. *)
Lemma seatFor_clock (j y r : nat) :
  (j < 4)%nat → (y < 4)%nat → (r < 4)%nat →
  Client.seatFor (Some (Z.of_nat j)) (Some (Z.of_nat y))
  = ["south"; "west"; "north"; "east"] !! r
  ↔ j = ((y + r) mod 4)%nat.
Proof.
  intros Hj Hy Hr.
  destruct j as [|[|[|[|j]]]]; [| | | |lia];
    (destruct y as [|[|[|[|y]]]]; [| | | |lia]);
    (destruct r as [|[|[|[|r]]]]; [| | | |lia]);
    vm_compute; (split; intros H; first [reflexivity | discriminate H]).
Qed.

Lemma waiting_seat (r : nat) (seatName : string) :
  ["south"; "west"; "north"; "east"] !! r = Some seatName →
  seatName ∈ Client.seatNames
  ∧ (list_to_map ((λ seatName, (seatName, Client.mkSeat "Waiting…" Client.NoCards))
                    <$> Client.seatNames) : gmap string Client.Seat) !! seatName
    = Some (Client.mkSeat "Waiting…" Client.NoCards).
Proof.
  intros Hr.
  destruct r as [|[|[|[|r]]]]; [| | | |discriminate Hr];
    apply (inj Some) in Hr; subst seatName;
    (split; [apply (bool_decide_unpack _); vm_compute; reflexivity
            | vm_compute; reflexivity]).
Qed.

(** X16. The table of the page is turned to the requester. For a game of
    at most four players with different ids, seated in order of arrival,
    the seat [r] places round from south, in the order south, west, north,
    east, shows the player [r] seats after the requester, counted round the
    four seats, with the label and cards of that player, and shows
    "Waiting…" with no cards when there is no such player. So the requester
    is at south, with "Your hand below". *)
Theorem seats_turn_to_requester (game : Game.t) (playerId : string) (y : nat) :
  seated_by_arrival game →
  (length (Game.players game) ≤ 4)%nat →
  NoDup (Player.id <$> Game.players game) →
  (Player.id <$> Game.players game) !! y = Some playerId →
  let view := projectGameForPlayer game playerId in
  (∀ (r : nat) (seatName : string),
     ["south"; "west"; "north"; "east"] !! r = Some seatName →
     Client.renderSeats view !! seatName
     = Some (match View.players view !! ((y + r) mod 4)%nat with
             | Some e => Client.mkSeat (Client.seatLabelOf e)
                           (Client.seatCardsOf (Some (View.status view)) e)
             | None => Client.mkSeat "Waiting…" Client.NoCards
             end))
  ∧ ∃ you, View.players view !! y = Some you
           ∧ PlayerView.id you = playerId
           ∧ Client.renderSeats view !! "south"
             = Some (Client.mkSeat (Client.seatLabelOf you) Client.YourHandBelow).
Proof.
  intros Hseated Hlen Hnodup Hy. cbv zeta.
  unfold projectGameForPlayer, Client.renderSeats.
  rewrite Projector_run_eq. cbn [fst View.players View.status].
  set (vp := Projector.projectPlayer game playerId <$> Game.players game).
  assert (Hpos : ∀ j e, vp !! j = Some e →
            (j < 4)%nat ∧ Z.of_nat <$> PlayerView.position e = Some (Z.of_nat j)
            ∧ (PlayerView.isYou e = true ↔ j = y)
            ∧ (j = y → PlayerView.id e = playerId)).
  { intros j e He. unfold vp in He. rewrite list_lookup_fmap in He.
    destruct (Game.players game !! j) as [p|] eqn:Hp; [|discriminate He].
    apply (inj Some) in He. subst e.
    pose proof (lookup_lt_Some _ _ _ Hp) as Hj.
    split; [lia|].
    assert (Hposp : Player.position p = Some j).
    { pose proof (f_equal (λ l, l !! j) Hseated) as Hl. cbn beta in Hl.
      rewrite !list_lookup_fmap, Hp, lookup_seq_lt in Hl by lia.
      cbn in Hl. by apply (inj Some) in Hl. }
    cbn. rewrite Hposp. split; [reflexivity|].
    assert (Hidp : (Player.id <$> Game.players game) !! j = Some (Player.id p))
      by (by rewrite list_lookup_fmap, Hp).
    rewrite bool_decide_eq_true. split; [split|].
    - intros Hid. rewrite <- Hid in Hy. exact (NoDup_lookup _ _ _ _ Hnodup Hidp Hy).
    - intros ->. rewrite Hy in Hidp. by apply (inj Some) in Hidp.
    - intros ->. rewrite Hy in Hidp. by apply (inj Some) in Hidp. }
  assert (Hyou : ∃ you, vp !! y = Some you).
  { apply lookup_lt_is_Some. unfold vp. rewrite length_fmap.
    apply lookup_lt_Some in Hy. by rewrite length_fmap in Hy. }
  destruct Hyou as [you Hyou].
  assert (Hy4 : (y < 4)%nat) by (by destruct (Hpos y you Hyou)).
  assert (HyourPos : Client.yourPos vp = Some (Z.of_nat y)).
  { unfold Client.yourPos. rewrite (find_first PlayerView.isYou vp y you Hyou).
    - by destruct (Hpos y you Hyou) as (_ & -> & _).
    - by apply (Hpos y you Hyou).
    - intros j x' Hj Hx'. destruct (Hpos j x' Hx') as (_ & _ & Hiff & _).
      destruct (PlayerView.isYou x'); [|reflexivity].
      destruct Hiff as [Hiff _]. specialize (Hiff eq_refl). lia. }
  assert (Hkey : ∀ j e r, vp !! j = Some e → (r < 4)%nat →
            Client.seatFor (Z.of_nat <$> PlayerView.position e) (Client.yourPos vp)
            = ["south"; "west"; "north"; "east"] !! r
            ↔ j = ((y + r) mod 4)%nat).
  { intros j e r He Hr. destruct (Hpos j e He) as (Hj & -> & _).
    rewrite HyourPos. by apply seatFor_clock. }
  assert (Hseats : ∀ (r : nat) (seatName : string),
     ["south"; "west"; "north"; "east"] !! r = Some seatName →
     Client.updateSeats (Some (Game.status game)) vp !! seatName
     = Some (match vp !! ((y + r) mod 4)%nat with
             | Some e => Client.mkSeat (Client.seatLabelOf e)
                           (Client.seatCardsOf (Some (Game.status game)) e)
             | None => Client.mkSeat "Waiting…" Client.NoCards
             end)).
  { intros r seatName Hr.
    pose proof (lookup_lt_Some _ _ _ Hr) as Hr4. cbn [length] in Hr4.
    destruct (waiting_seat r seatName Hr) as [Hin Hwaiting].
    rewrite updateSeats_fold.
    destruct (vp !! ((y + r) mod 4)%nat) as [e|] eqn:He.
    - apply (seat_fold_at
               (λ player, Client.seatFor (Z.of_nat <$> PlayerView.position player)
                            (Client.yourPos vp))
               (λ player, Client.mkSeat (Client.seatLabelOf player)
                            (Client.seatCardsOf (Some (Game.status game)) player))
               vp _ seatName ((y + r) mod 4)%nat e He).
      + rewrite <- Hr. by apply (Hkey _ e r He).
      + exact Hin.
      + intros j p' Hj Hp' Hsame. rewrite <- Hr in Hsame.
        apply (Hkey j p' r Hp' Hr4) in Hsame. lia.
    - rewrite seat_fold_other; [exact Hwaiting|].
      intros p Hp Hsame. apply list_elem_of_lookup in Hp as [j Hj].
      rewrite <- Hr in Hsame. apply (Hkey j p r Hj Hr4) in Hsame.
      subst j. rewrite He in Hj. discriminate Hj. }
  split; [exact Hseats|].
  exists you. split; [exact Hyou|].
  destruct (Hpos y you Hyou) as (_ & _ & Hisyou & Hid).
  split; [by apply Hid|].
  rewrite (Hseats 0%nat "south" eq_refl).
  rewrite Nat.add_0_r, Nat.mod_small, Hyou by lia.
  unfold Client.seatCardsOf. by rewrite (proj2 Hisyou eq_refl).
Qed.

Lemma seats_turn_to_requester_sample :
  (seated_by_arrival sample_lobby
   ∧ (length (Game.players sample_lobby) ≤ 4)%nat
   ∧ NoDup (Player.id <$> Game.players sample_lobby)
   ∧ (Player.id <$> Game.players sample_lobby) !! 2%nat = Some "p2")
  ∧ Client.renderSeats (projectGameForPlayer sample_lobby "p2") !! "west"
    = Some (Client.mkSeat "Dee" Client.NoCards).
Proof.
  assert (H1 : seated_by_arrival sample_lobby) by (vm_compute; reflexivity).
  assert (H2 : (length (Game.players sample_lobby) ≤ 4)%nat) by (vm_compute; lia).
  assert (H3 : NoDup (Player.id <$> Game.players sample_lobby)).
  { apply (bool_decide_unpack _). vm_compute. reflexivity. }
  assert (H4 : (Player.id <$> Game.players sample_lobby) !! 2%nat = Some "p2")
    by (vm_compute; reflexivity).
  split; [by repeat split|].
  exact (proj1 (seats_turn_to_requester sample_lobby "p2" 2 H1 H2 H3 H4) 1%nat "west" eq_refl).
Defined.

(** X19. The create route. A blank name is answered 400 "Name is
    required" and nothing changes. Otherwise, when the route answers, the
    answer is 200 with a code that was not in the store, the next UUID and
    seat 0; the store gains exactly one game, a lobby under that code whose
    only player is the creator (with the trimmed name) as host, and every
    game that was stored is still stored unchanged. The route answers at
    the first attempt when the first code drawn is not taken. *)
Theorem create_opens_fresh_lobby (random_tape : nat → nat) (uuid_tape : nat → string)
    (fuel : nat) (b q : gmap string string) (st : Server) :
  let name := JsString.trim (default "" (b !! "name")) in
  let req := mkRequest "POST" "/api/game/create" b q in
  (name = "" →
   handleApi random_tape uuid_tape fuel req st
   = Some (sendJson 400 (JsonError "Name is required"), st))
  ∧ (∀ resp st',
       name ≠ "" →
       handleApi random_tape uuid_tape fuel req st = Some (resp, st') →
       ∃ code,
         games st !! code = None
         ∧ resp = sendJson 200 (JsonSeat code (uuid_tape (uuidCalls st)) (Some 0%nat))
         ∧ games st'
           = <[code := Game.mk code (uuid_tape (uuidCalls st)) "lobby"
                         [Player.mk (uuid_tape (uuidCalls st)) name (Some 0%nat)] ∅]>
               (games st)
         ∧ (∀ c g, games st !! c = Some g → games st' !! c = Some g)
         ∧ size (games st') = S (size (games st)))
  ∧ (name ≠ "" →
     games st !! (code_from random_tape 5 "" st).1 = None →
     ∃ st',
       handleApi random_tape uuid_tape (S fuel) req st
       = Some (sendJson 200 (JsonSeat (code_from random_tape 5 "" st).1
                               (uuid_tape (uuidCalls st)) (Some 0%nat)), st')).
Proof.
  cbv zeta. split; [|split].
  - intros Hname. unfold handleApi. cbn [method pathname body].
    rewrite decide_True by done. by rewrite decide_True by exact Hname.
  - intros resp st' Hname. unfold handleApi. cbn [method pathname body].
    rewrite decide_True by done. rewrite decide_False by exact Hname.
    destruct (createGame _ _ _ _ _) as [[[game player] st1]|] eqn:Hcreate;
      [|intros H; discriminate H].
    cbn [mbind option_bind]. intros Heq. apply (inj Some) in Heq.
    apply pair_equal_spec in Heq as [<- <-].
    apply createGame_spec in Hcreate as (code & Hnew & -> & -> & Hgames & _).
    exists code. split; [exact Hnew|]. split; [reflexivity|].
    split; [exact Hgames|]. split.
    + intros c g Hc. rewrite Hgames. rewrite lookup_insert_ne; [exact Hc|].
      intros <-. rewrite Hnew in Hc. discriminate Hc.
    + rewrite Hgames. by apply map_size_insert_None.
  - intros Hname Hnew. unfold handleApi. cbn [method pathname body].
    rewrite decide_True by done. rewrite decide_False by exact Hname.
    unfold createGame. rewrite (generateCode_first random_tape fuel st Hnew).
    destruct (code_from random_tape 5 "" st) as [code st1] eqn:Hcode.
    pose proof (code_from_server random_tape 5 "" st) as Hserver.
    rewrite Hcode in Hserver. cbn [fst snd] in *.
    cbn. eexists. destruct Hserver as [_ ->]. reflexivity.
Qed.
